(** * Event-Loop-Visualizer: parser and stepping engine

    A shallow embedding of [utils/parser.ts] ([parseCode]) and of the engine
    of [App.tsx] ([resetEngine], [step], the Web API timer effect), followed
    by the properties of the specification that were checked against them.

    Modelling conventions.
    - A JavaScript string is a [string]; every [ascii] stands for one code
      unit below 256 (Latin-1), so the white space of [trim] and of the
      regular expression class [\s] is 9-13, 32 and 160, and the line
      terminators excluded by [.] are 10 and 13.
    - A JavaScript number that holds an integer is a [Z] (line numbers,
      delays, clock values, the brace balance).  Where the code computes a
      number that may leave the range in which doubles are exact ([parseInt]
      on the delay, the timer's subtraction) the result is rounded the way
      a double is, by [Num.roundDouble]; [+Infinity] is held as [2^1024].
      List positions and the identifier counter are [nat].
    - An optional property is an [option]; [x || d] and the truthiness test
      [if (x)] on numbers are written out ([0] and [undefined] are falsy).
    - A property access on [undefined] raises: it is the [TypeError] of
      [result]. *)

From Stdlib Require Import List String Ascii ZArith Lia Bool Arith DecimalString.
From Stdlib Require Import DecimalNat Permutation.
Set Warnings "-register-all".
Import ListNotations.
Open Scope string_scope.
Open Scope list_scope.
Open Scope Z_scope.

(* ================================================================== *)
(** ** types.ts *)

Inductive TaskType := LOG | TIMEOUT | PROMISE | MAIN.

Inductive Task : Type := mkTask {
  id : string;
  type : TaskType;
  content : string;
  delay : option Z;
  children : option (list Task);
  line : option Z
}.

(** [WebApiTask extends Task]: the task's own properties and two more. *)
Record WebApiTask := mkWebApiTask {
  api_task : Task;
  startTime : Z;
  remainingTime : Z
}.

(** [currentLineIndex] is declared optional, but every frame the engine
    builds sets it and [step] reads it under a non-null assertion: it is a
    list position here. *)
Record CallStackFrame := mkFrame {
  f_id : string;
  f_name : string;
  f_type : TaskType;
  linesOfCode : option (list Task);
  currentLineIndex : nat;
  highlightLine : option Z
}.

Record EngineState := mkEngine {
  code : string;
  parsedTasks : list Task;
  callStack : list CallStackFrame;
  webApis : list WebApiTask;
  microtaskQueue : list Task;
  macrotaskQueue : list Task;
  consoleOutput : list string;
  isRunning : bool;
  speed : Z;
  isFinished : bool;
  activeLine : option Z
}.

(* ================================================================== *)
(** ** Results and the identifier counter *)

Inductive result (A : Type) : Type :=
| Ok (a : A)
| TypeError
| OutOfFuel.
Arguments Ok {A} a.
Arguments TypeError {A}.
Arguments OutOfFuel {A}.

(** A parser computation reads and writes the module-level [idCounter]. *)
Definition M (A : Type) : Type := nat -> result (A * nat).

Definition ret {A} (a : A) : M A := fun c => Ok (a, c).

Definition bind {A B} (m : M A) (k : A -> M B) : M B :=
  fun c => match m c with
           | Ok (a, c') => k a c'
           | TypeError => TypeError
           | OutOfFuel => OutOfFuel
           end.

Definition exhausted {A} : M A := fun _ => OutOfFuel.

Notation "x <- m ;; k" := (bind m (fun x => k))
  (at level 61, m at next level, right associativity).

(* ================================================================== *)
(** ** Numbers *)

Module Num.

(** Below [2^53] in magnitude every integer is a double. *)
Definition exactBound : Z := 9007199254740992.

(** The integer that stands for [+Infinity]: the first power of two beyond
    the largest finite double. *)
Definition infinity : Z := 2 ^ 1024.

(** The double nearest to the positive integer [z], ties to the even
    significand (IEEE 754 binary64, round to nearest): [z] keeps its 53
    leading bits, and what reaches [2^1024] is [+Infinity]. *)
Definition roundPos (z : Z) : Z :=
  let e := Z.log2 z in
  if e <=? 52 then z
  else
    let k := e - 52 in
    let q := z / 2 ^ k in
    let r := z mod 2 ^ k in
    let half := 2 ^ (k - 1) in
    let m := if r <? half then q
             else if half <? r then q + 1
             else if Z.even q then q else q + 1 in
    Z.min (m * 2 ^ k) infinity.

(** The double nearest to the integer [z]. *)
Definition roundDouble (z : Z) : Z :=
  if z =? 0 then 0
  else if 0 <? z then roundPos z
  else - roundPos (- z).

End Num.

(* ================================================================== *)
(** ** Strings *)

Module Str.

Definition nl : ascii := ascii_of_nat 10.
Definition cr : ascii := ascii_of_nat 13.

Definition str (c : ascii) : string := String c EmptyString.

(** White space and line terminators, as [String.prototype.trim] and the
    class [\s] see them among the code units below 256. *)
Definition isSpace (c : ascii) : bool :=
  let n := nat_of_ascii c in
  ((9 <=? n) && (n <=? 13) || (n =? 32) || (n =? 160))%nat.

(** [.] matches everything but a line terminator. *)
Definition isLineTerminator (c : ascii) : bool :=
  Ascii.eqb c nl || Ascii.eqb c cr.

Definition isDigit (c : ascii) : bool :=
  let n := nat_of_ascii c in ((48 <=? n) && (n <=? 57))%nat.

Fixpoint trimStart (s : string) : string :=
  match s with
  | EmptyString => EmptyString
  | String c r => if isSpace c then trimStart r else s
  end.

Fixpoint trimEnd (s : string) : string :=
  match s with
  | EmptyString => EmptyString
  | String c r =>
      match trimEnd r with
      | EmptyString => if isSpace c then EmptyString else str c
      | r' => String c r'
      end
  end.

Definition trim (s : string) : string := trimEnd (trimStart s).

Definition startsWith (p s : string) : bool := String.prefix p s.

(** [s.includes(p)] *)
Fixpoint includes (p s : string) : bool :=
  startsWith p s ||
  match s with
  | EmptyString => false
  | String _ r => includes p r
  end.

(** [s.split('\n')] *)
Fixpoint split_nl (s : string) : list string :=
  match s with
  | EmptyString => [EmptyString]
  | String c r =>
      if Ascii.eqb c nl then EmptyString :: split_nl r
      else match split_nl r with
           | h :: t => String c h :: t
           | [] => [str c]
           end
  end.

(** The rest of [s] after the literal [p], when [s] starts with it. *)
Fixpoint expect (p s : string) : option string :=
  match p with
  | EmptyString => Some s
  | String a p' =>
      match s with
      | EmptyString => None
      | String b s' => if Ascii.eqb a b then expect p' s' else None
      end
  end.

(** An unanchored pattern is tried at every position, leftmost first. *)
Fixpoint firstMatch {A} (at_ : string -> option A) (s : string) : option A :=
  match at_ s with
  | Some a => Some a
  | None =>
      match s with
      | EmptyString => None
      | String _ r => firstMatch at_ r
      end
  end.

Definition isSome {A} (o : option A) : bool :=
  match o with Some _ => true | None => false end.

Fixpoint spanDigits (s : string) : string * string :=
  match s with
  | EmptyString => (EmptyString, EmptyString)
  | String c r =>
      if isDigit c
      then let '(d, r') := spanDigits r in (String c d, r')
      else (EmptyString, s)
  end.

(** The integer a string of decimal digits writes. *)
Fixpoint parseDigits (acc : Z) (d : string) : Z :=
  match d with
  | EmptyString => acc
  | String c r => parseDigits (10 * acc + (Z.of_nat (nat_of_ascii c) - 48)) r
  end.

(** [parseInt(d, 10)] on a string of decimal digits: the double nearest to
    the integer written. *)
Definition parseInt (d : string) : Z := Num.roundDouble (parseDigits 0 d).

Definition ofNat (n : nat) : string := NilEmpty.string_of_uint (Nat.to_uint n).
Definition ofZ (z : Z) : string := NilEmpty.string_of_int (Z.to_int z).

(** [lines.join('\n')] *)
Fixpoint join_nl (l : list string) : string :=
  match l with
  | [] => EmptyString
  | [x] => x
  | x :: r => (x ++ str nl ++ join_nl r)%string
  end.

End Str.

(* ================================================================== *)
(** ** utils/parser.ts *)

Module Parser.
Import Str.

(** [const genId = () => `task-${idCounter++}`] *)
Definition genId : M string := fun c => Ok (("task-" ++ ofNat c)%string, S c).

(** *** The regular expressions *)

(** [(.+?)\1\)] after the opening quote [q]: the shortest non-empty run of
    characters other than line terminators that is followed by [q] and a
    closing parenthesis. *)
Fixpoint lazyMore (q : ascii) (r acc : string) : option string :=
  if startsWith (String q ")") r then Some acc
  else match r with
       | EmptyString => None
       | String c r' =>
           if isLineTerminator c then None
           else lazyMore q r' (acc ++ str c)%string
       end.

Definition lazyBody (q : ascii) (r : string) : option string :=
  match r with
  | EmptyString => None
  | String c r' => if isLineTerminator c then None else lazyMore q r' (str c)
  end.

Definition dquote : ascii := ascii_of_nat 34.

Definition isQuote (c : ascii) : bool :=
  Ascii.eqb c "'" || Ascii.eqb c dquote || Ascii.eqb c "`".

(** The pattern of [logMatch], [console\.log\(] then a quote (single,
    double or backtick, captured) then [(.+?)\1\)], anchored at the start
    of [s]; the result is capture group 2. *)
Definition logAt (s : string) : option string :=
  match expect "console.log(" s with
  | Some (String q r) => if isQuote q then lazyBody q r else None
  | _ => None
  end.

Definition logMatch (rawLine : string) : option string :=
  firstMatch logAt rawLine.

Fixpoint skipSpaces (s : string) : string :=
  match s with
  | EmptyString => EmptyString
  | String c r => if isSpace c then skipSpaces r else s
  end.

(** [name\(\s*\(\)\s*=>\s*\{] anchored at the start of [s]. *)
Definition arrowOpenAt (name s : string) : option unit :=
  match expect (name ++ "(")%string s with
  | None => None
  | Some r1 =>
      match expect "()" (skipSpaces r1) with
      | None => None
      | Some r2 =>
          match expect "=>" (skipSpaces r2) with
          | None => None
          | Some r3 =>
              match expect "{" (skipSpaces r3) with
              | None => None
              | Some _ => Some tt
              end
          end
      end
  end.

(** [/setTimeout\(\s*\(\)\s*=>\s*\{/] *)
Definition timeoutStart (rawLine : string) : bool :=
  isSome (firstMatch (arrowOpenAt "setTimeout") rawLine).

(** [/setImmediate\(\s*\(\)\s*=>\s*\{/] *)
Definition immediateStart (rawLine : string) : bool :=
  isSome (firstMatch (arrowOpenAt "setImmediate") rawLine).

(** [/(Promise\.resolve\(\)\.then|queueMicrotask|process\.nextTick)\(\s*\(\)\s*=>\s*\{/] *)
Definition microAt (s : string) : option unit :=
  match arrowOpenAt "Promise.resolve().then" s with
  | Some u => Some u
  | None =>
      match arrowOpenAt "queueMicrotask" s with
      | Some u => Some u
      | None => arrowOpenAt "process.nextTick" s
      end
  end.

Definition microStart (rawLine : string) : bool :=
  isSome (firstMatch microAt rawLine).

(** [/\},\s*(\d+)\);?/] anchored at the start of [s]; the result is
    [parseInt] of capture group 1. *)
Definition delayAt (s : string) : option Z :=
  match expect "}," s with
  | None => None
  | Some r1 =>
      let '(d, r2) := spanDigits (skipSpaces r1) in
      match d with
      | EmptyString => None
      | _ => if startsWith ")" r2 then Some (parseInt d) else None
      end
  end.

Definition delayMatch (closingLine : string) : option Z :=
  firstMatch delayAt closingLine.

(** *** Finding the closing line *)

(** One pass of the loop body over a scanned line:
    [if (l.includes('{')) balance++; if (l.includes('}')) balance--;] *)
Definition scanLine (balance : Z) (l : string) : Z :=
  let b1 := if includes "{" l then balance + 1 else balance in
  if includes "}" l then b1 - 1 else b1.

(** [lines[j]] where a method is called on it. *)
Definition getLine (lines : list string) (j : nat) : result string :=
  match nth_error lines j with
  | Some l => Ok l
  | None => TypeError
  end.

(** [for (; j < endLine; j++) { ...; if (balance === 0) break; }], the value
    of [j] after the loop.  [n] is [endLine - j], the number of iterations
    left.  The three callback branches of [parseBlock] carry the same
    loop. *)
Fixpoint scanFrom (lines : list string) (n : nat) (j : nat) (balance : Z)
  : result nat :=
  match n with
  | O => Ok j
  | S n' =>
      match getLine lines j with
      | Ok l =>
          let b := scanLine balance l in
          if b =? 0 then Ok j else scanFrom lines n' (S j) b
      | TypeError => TypeError
      | OutOfFuel => OutOfFuel
      end
  end.

(** [let balance = 1; let j = i + 1; for ...] *)
Definition findClose (lines : list string) (i endLine : nat) : result nat :=
  scanFrom lines (endLine - S i) (S i) 1.

Definition liftR {A} (r : result A) : M A :=
  fun c => match r with
           | Ok a => Ok (a, c)
           | TypeError => TypeError
           | OutOfFuel => OutOfFuel
           end.

(** [let label = 'Promise.then'; if (...) label = ...; if (...) label = ...] *)
Definition microLabel (rawLine : string) : string :=
  let l0 := "Promise.then" in
  let l1 := if includes "queueMicrotask" rawLine then "queueMicrotask" else l0 in
  if includes "process.nextTick" rawLine then "process.nextTick" else l1.

(** [lines[j]], or the empty string when it is undefined. *)
Definition closingLineOf (lines : list string) (j : nat) : string :=
  match nth_error lines j with
  | Some l => l
  | None => EmptyString
  end.

Definition lineNo (i : nat) : option Z := Some (Z.of_nat i + 1).

(** [parseBlock(lines, i, endLine)]: the loop of [parseBlock] entered at
    index [i], returning the tasks pushed from there on.  One unit of fuel
    is spent per loop iteration; the recursive call on a callback body and
    the rest of the loop share what is left. *)
Fixpoint parseBlock (fuel : nat) (lines : list string) (i endLine : nat)
  : M (list Task) :=
  if (endLine <=? i)%nat then ret []
  else
    match fuel with
    | O => exhausted
    | S fuel' =>
        l <- liftR (getLine lines i) ;;
        let rawLine := trim l in
        if (String.eqb rawLine EmptyString || startsWith "//" rawLine)%bool
        then parseBlock fuel' lines (S i) endLine
        else
          match logMatch rawLine with
          | Some msg =>
              tid <- genId ;;
              rest <- parseBlock fuel' lines (S i) endLine ;;
              ret (mkTask tid LOG msg None None (lineNo i) :: rest)
          | None =>
              if timeoutStart rawLine then
                j <- liftR (findClose lines i endLine) ;;
                let d := match delayMatch (closingLineOf lines j) with
                         | Some n => n
                         | None => 0
                         end in
                body <- parseBlock fuel' lines (S i) j ;;
                tid <- genId ;;
                rest <- parseBlock fuel' lines (S j) endLine ;;
                ret (mkTask tid TIMEOUT "setTimeout" (Some d) (Some body)
                            (lineNo i) :: rest)
              else if immediateStart rawLine then
                j <- liftR (findClose lines i endLine) ;;
                body <- parseBlock fuel' lines (S i) j ;;
                tid <- genId ;;
                rest <- parseBlock fuel' lines (S j) endLine ;;
                ret (mkTask tid TIMEOUT "setImmediate" (Some 0) (Some body)
                            (lineNo i) :: rest)
              else if microStart rawLine then
                j <- liftR (findClose lines i endLine) ;;
                body <- parseBlock fuel' lines (S i) j ;;
                tid <- genId ;;
                rest <- parseBlock fuel' lines (S j) endLine ;;
                ret (mkTask tid PROMISE (microLabel rawLine) None (Some body)
                            (lineNo i) :: rest)
              else parseBlock fuel' lines (S i) endLine
          end
    end.

(** [parseCode(code)].  [idCounter] is the value the module-level counter
    holds on entry; the first statement overwrites it.  The result comes
    with the counter's value on exit. *)
Definition parseCode (idCounter : nat) (code : string)
  : result (list Task * nat) :=
  let idCounter := 0%nat in
  let lines := split_nl code in
  parseBlock (S (List.length lines)) lines 0 (List.length lines) idCounter.

End Parser.


(* ================================================================== *)
(** ** App.tsx: the engine *)

Module Engine.
Import Str Parser.

(** A JavaScript array used as a stack: [push] appends, [pop] removes the
    last element, the active frame is [stack[stack.length - 1]]. *)
Fixpoint unsnoc {A} (l : list A) : option (list A * A) :=
  match l with
  | [] => None
  | x :: r =>
      match unsnoc r with
      | None => Some ([], x)
      | Some (i, t) => Some (x :: i, t)
      end
  end.

(** [n || 0] on an optional number *)
Definition orZero (n : option Z) : Z :=
  match n with Some d => d | None => 0 end.

(** [if (n) ...]: a number is truthy when it is defined and not zero. *)
Definition truthy (n : option Z) : bool :=
  match n with Some d => negb (d =? 0) | None => false end.

(** [n || null] *)
Definition orNull (n : option Z) : option Z :=
  if truthy n then n else None.

(** [l || []] *)
Definition orEmpty (l : option (list Task)) : list Task :=
  match l with Some c => c | None => [] end.

Definition initialState : EngineState :=
  mkEngine EmptyString [] [] [] [] [] [] false 1000 false None.

(** [resetEngine(newCode, autoPlay)], the state it installs.  [prev] is the
    state being replaced (its speed persists) and [idCounter] the parser's
    counter at the time of the call. *)
Definition resetEngine (idCounter : nat) (newCode : string) (autoPlay : bool)
  (prev : EngineState) : result EngineState :=
  match parseCode idCounter newCode with
  | Ok (tasks, _) =>
      let mainFrame := mkFrame "main" "main()" MAIN (Some tasks) 0 (Some 0) in
      Ok (mkEngine newCode tasks [mainFrame]
            (webApis initialState) (microtaskQueue initialState)
            (macrotaskQueue initialState) (consoleOutput initialState)
            autoPlay (speed prev) (isFinished initialState) None)
  | TypeError => TypeError
  | OutOfFuel => OutOfFuel
  end.

(** The identifier of a queued microtask,
    [`micro-${Date.now()}-${Math.random()}`]; [random] is the rendering of
    the random draw. *)
Definition microId (now : Z) (random : string) : string :=
  ("micro-" ++ ofZ now ++ "-" ++ random)%string.

(** The entry [step] queues for a microtask registration [task] whose
    [children] are [body]. *)
Definition microTaskOf (now : Z) (random : string) (task : Task)
  (body : list Task) : Task :=
  mkTask (microId now random) PROMISE
         (if String.eqb (content task) "process.nextTick"
          then "process.nextTick" else "Promise Callback")
         None (Some body) (line task).

(** [{ ...task, startTime: Date.now(), remainingTime: task.delay || 0 }] *)
Definition webApiOf (now : Z) (task : Task) : WebApiTask :=
  mkWebApiTask task now (orZero (delay task)).

(** The frame pushed for a dequeued microtask. *)
Definition microFrame (nextMicro : Task) : CallStackFrame :=
  mkFrame (id nextMicro) (content nextMicro) PROMISE
          (Some (orEmpty (children nextMicro))) 0 (line nextMicro).

(** The frame pushed for a dequeued macrotask. *)
Definition macroFrame (nextMacro : Task) : CallStackFrame :=
  mkFrame (id nextMacro)
          (if String.eqb (content nextMacro) "setImmediate"
           then "setImmediate" else "setTimeout")
          TIMEOUT (Some (orEmpty (children nextMacro))) 0 (line nextMacro).

(** The frame's next instruction, or [None] when the frame is finished:
    [!frame.linesOfCode || frame.currentLineIndex >= frame.linesOfCode.length] *)
Definition currentTask (frame : CallStackFrame) : option Task :=
  match linesOfCode frame with
  | None => None
  | Some body => nth_error body (currentLineIndex frame)
  end.

Definition advance (frame : CallStackFrame) : CallStackFrame :=
  mkFrame (f_id frame) (f_name frame) (f_type frame) (linesOfCode frame)
          (S (currentLineIndex frame)) (highlightLine frame).

(** [step], the updater it hands to [setEngine].  [now] is [Date.now()] and
    [random] the rendering of [Math.random()] at the time of the call. *)
Definition step (now : Z) (random : string) (prev : EngineState)
  : EngineState :=
  match unsnoc (callStack prev) with
  | Some (below, frame) =>
      (* A. the stack is not empty: execute the top frame *)
      match currentTask frame with
      | None =>
          mkEngine (code prev) (parsedTasks prev) below (webApis prev)
                   (microtaskQueue prev) (macrotaskQueue prev)
                   (consoleOutput prev) (isRunning prev) (speed prev)
                   (isFinished prev) None
      | Some task =>
          let stack := below ++ [advance frame] in
          let activeLine' :=
            if truthy (line task) then line task else activeLine prev in
          let consoleOut :=
            match type task with
            | LOG => consoleOutput prev ++ [content task]
            | _ => consoleOutput prev
            end in
          let webApis' :=
            match type task with
            | TIMEOUT => webApis prev ++ [webApiOf now task]
            | _ => webApis prev
            end in
          let microQueue :=
            match type task, children task with
            | PROMISE, Some body =>
                microtaskQueue prev ++ [microTaskOf now random task body]
            | _, _ => microtaskQueue prev
            end in
          mkEngine (code prev) (parsedTasks prev) stack webApis' microQueue
                   (macrotaskQueue prev) consoleOut (isRunning prev)
                   (speed prev) (isFinished prev) activeLine'
      end
  | None =>
      (* B. the stack is empty: check the queues *)
      match microtaskQueue prev with
      | nextMicro :: microQueue =>
          mkEngine (code prev) (parsedTasks prev)
                   (callStack prev ++ [microFrame nextMicro])
                   (webApis prev) microQueue (macrotaskQueue prev)
                   (consoleOutput prev) (isRunning prev) (speed prev)
                   (isFinished prev) (orNull (line nextMicro))
      | [] =>
          match macrotaskQueue prev with
          | nextMacro :: macroQueue =>
              mkEngine (code prev) (parsedTasks prev)
                       (callStack prev ++ [macroFrame nextMacro])
                       (webApis prev) (microtaskQueue prev) macroQueue
                       (consoleOutput prev) (isRunning prev) (speed prev)
                       (isFinished prev) (orNull (line nextMacro))
          | [] =>
              let isFinished' :=
                match webApis prev with [] => true | _ => false end in
              let activeLine' :=
                if isFinished' then None else activeLine prev in
              mkEngine (code prev) (parsedTasks prev) (callStack prev)
                       (webApis prev) (microtaskQueue prev)
                       (macrotaskQueue prev) (consoleOutput prev)
                       (if isFinished' then false else isRunning prev)
                       (speed prev) isFinished' activeLine'
          end
      end
  end.

(** [{ ...api, content: ... }] seen as the [Task] the macrotask queue holds:
    the two timer properties it also carries are never read again. *)
Definition promoted (api : WebApiTask) : Task :=
  let t := api_task api in
  mkTask (id t) (type t)
         (if String.eqb (content t) "setImmediate"
          then "setImmediate" else "Timeout Callback")
         (delay t) (children t) (line t).

Definition tickInterval : Z := 100.

(** [{ ...api, remainingTime: api.remainingTime - 100 }]: the subtraction
    is that of doubles. *)
Definition decremented (api : WebApiTask) : WebApiTask :=
  mkWebApiTask (api_task api) (startTime api)
               (Num.roundDouble (remainingTime api - tickInterval)).

(** The body of [prev.webApis.forEach], on the three variables it updates:
    [updatedWebApis], [newMacrotasks], [hasChanges]. *)
Definition tickEntry (acc : list WebApiTask * list Task * bool)
  (api : WebApiTask) : list WebApiTask * list Task * bool :=
  let '(updatedWebApis, newMacrotasks, _) := acc in
  if remainingTime api <=? 0
  then (updatedWebApis, newMacrotasks ++ [promoted api], true)
  else (updatedWebApis ++ [decremented api], newMacrotasks, true).

(** The Web API timer effect: the updater run every 100 ms. *)
Definition tick (prev : EngineState) : EngineState :=
  match webApis prev with
  | [] => prev
  | _ =>
      let '(updatedWebApis, newMacrotasks, hasChanges) :=
        fold_left tickEntry (webApis prev) ([], macrotaskQueue prev, false) in
      if negb hasChanges then prev
      else mkEngine (code prev) (parsedTasks prev) (callStack prev)
                    updatedWebApis (microtaskQueue prev) newMacrotasks
                    (consoleOutput prev) (isRunning prev) (speed prev)
                    (isFinished prev) (activeLine prev)
  end.

(** The two writers of the engine state, serialised. *)
Inductive Event :=
| EvStep (now : Z) (random : string)
| EvTick.

Definition apply (s : EngineState) (e : Event) : EngineState :=
  match e with
  | EvStep now random => step now random s
  | EvTick => tick s
  end.

Definition run (evs : list Event) (s : EngineState) : EngineState :=
  fold_left apply evs s.

(** The states of a session: installed by [resetEngine], then driven by
    [step] and the timer. *)
Inductive reachable : EngineState -> Prop :=
| reach_reset c newCode autoPlay prev s :
    resetEngine c newCode autoPlay prev = Ok s -> reachable s
| reach_event s e : reachable s -> reachable (apply s e).

End Engine.

(* ================================================================== *)
(** ** Observations on the engine *)

Module Observe.
Import Str Parser Engine.

(** The finished condition: stack, pending set and both queues empty. *)
Definition allEmpty (s : EngineState) : Prop :=
  callStack s = [] /\ webApis s = [] /\
  microtaskQueue s = [] /\ macrotaskQueue s = [].

(** The states of a session keep the finished flag in step with the rest:
    once it is set, nothing is left to run, no line is highlighted and the
    auto-run flag is down. *)
Definition settled (s : EngineState) : Prop :=
  isFinished s = true ->
  allEmpty s /\ activeLine s = None /\ isRunning s = false.

(** What one transition took from the head of a queue and what it added at
    its tail, read off the queue before ([q]) and after ([q']). *)
Definition dequeuedOf (q q' : list Task) : list Task :=
  if (List.length q' <? List.length q)%nat then firstn 1 q else [].

Definition enqueuedOf (q q' : list Task) : list Task :=
  skipn (List.length q - List.length (dequeuedOf q q')) q'.

(** The entries dequeued and the entries enqueued along a run, in order,
    for the queue selected by [queue]. *)
Fixpoint history (queue : EngineState -> list Task) (evs : list Event)
  (s : EngineState) : list Task * list Task :=
  match evs with
  | [] => ([], [])
  | e :: r =>
      let s' := apply s e in
      let '(d, n) := history queue r s' in
      (dequeuedOf (queue s) (queue s') ++ d,
       enqueuedOf (queue s) (queue s') ++ n)
  end.

(** The state a session starts from for a source text. *)
Definition startOf (text : string) : EngineState :=
  match resetEngine 0 text false initialState with
  | Ok s => s
  | _ => initialState
  end.

End Observe.

(* ================================================================== *)
(** ** Observations on the parser *)

Module ParserView.
Import Str Parser.

(** [parseBlock(lines, i, endLine)] with the fuel its loop can use up. *)
Definition parseRange (lines : list string) (i endLine : nat) : M (list Task) :=
  parseBlock (S (endLine - i)) lines i endLine.

(** The lines that reach the end of the loop body without a push: blank
    lines, comments, and lines none of the four patterns matches. *)
Definition unrecognized (rawLine : string) : bool :=
  String.eqb rawLine EmptyString || startsWith "//" rawLine ||
  (negb (isSome (logMatch rawLine)) && negb (timeoutStart rawLine) &&
   negb (immediateStart rawLine) && negb (microStart rawLine)).

(** The lines that take one of the three callback branches. *)
Definition opensCallback (rawLine : string) : bool :=
  negb (String.eqb rawLine EmptyString || startsWith "//" rawLine) &&
  negb (isSome (logMatch rawLine)) &&
  (timeoutStart rawLine || immediateStart rawLine || microStart rawLine).

(** The balance held after the scan that starts below line [i] has
    processed line [k]. *)
Definition balanceAfter (lines : list string) (i k : nat) : Z :=
  fold_left scanLine (firstn (k - i) (skipn (S i) lines)) 1.

(** A tree with its identifiers blanked. *)
Fixpoint eraseId (t : Task) : Task :=
  match t with
  | mkTask _ ty c d ch l =>
      mkTask EmptyString ty c d
             (match ch with
              | Some b => Some (map eraseId b)
              | None => None
              end) l
  end.

(** *** The scan as the specification words it *)

(** The number of occurrences of the character [c] in [s]. *)
Fixpoint occurrences (c : ascii) (s : string) : Z :=
  match s with
  | EmptyString => 0
  | String a r => (if Ascii.eqb a c then 1 else 0) + occurrences c r
  end.

(** The specification's update of the balance over one line: up by one for
    every open brace, down by one for every close brace. *)
Definition specScanLine (balance : Z) (l : string) : Z :=
  balance + occurrences "{" l - occurrences "}" l.

(** The specification's closing line: the first line from [j] on at which
    that balance reaches 0, or the end of the range. *)
Fixpoint specScanFrom (lines : list string) (n : nat) (j : nat) (balance : Z)
  : nat :=
  match n with
  | O => j
  | S n' =>
      let b := specScanLine balance (closingLineOf lines j) in
      if b =? 0 then j else specScanFrom lines n' (S j) b
  end.

Definition specFindClose (lines : list string) (i endLine : nat) : nat :=
  specScanFrom lines (endLine - S i) (S i) 1.

End ParserView.

(* ================================================================== *)
(** ** Scenario B and the states it can reach *)

Module Scenario.
Import Str Parser Engine Observe.

(** The three spellings of a microtask registration. *)
Inductive MicroSpelling := PromiseThen | QueueMicrotask | NextTick.

(** The spellings of a timer that asks for no delay. *)
Inductive TimerSpelling := TimeoutZero | TimeoutNoDelay | Immediate.

Definition microOpen (m : MicroSpelling) : string :=
  match m with
  | PromiseThen => "Promise.resolve().then(() => {"
  | QueueMicrotask => "queueMicrotask(() => {"
  | NextTick => "process.nextTick(() => {"
  end.

Definition timerOpen (t : TimerSpelling) : string :=
  match t with
  | TimeoutZero | TimeoutNoDelay => "setTimeout(() => {"
  | Immediate => "setImmediate(() => {"
  end.

Definition timerClose (t : TimerSpelling) : string :=
  match t with
  | TimeoutZero => "}, 0);"
  | TimeoutNoDelay | Immediate => "});"
  end.

(** Log [A]; a zero-delay timer logging [B]; a microtask logging [C];
    log [D]; laid out the way the sample generator lays callbacks out. *)
Definition scenarioB (t : TimerSpelling) (m : MicroSpelling) : string :=
  join_nl [ "console.log('A');";
            timerOpen t; "  console.log('B');"; timerClose t;
            microOpen m; "  console.log('C');"; "});";
            "console.log('D');" ].

(** *** Boolean equality on engine states *)

Definition option_eqb {A} (eqb : A -> A -> bool) (x y : option A) : bool :=
  match x, y with
  | Some a, Some b => eqb a b
  | None, None => true
  | _, _ => false
  end.

Fixpoint list_eqb {A} (eqb : A -> A -> bool) (x y : list A) : bool :=
  match x, y with
  | [], [] => true
  | a :: x', b :: y' => eqb a b && list_eqb eqb x' y'
  | _, _ => false
  end.

Definition TaskType_eqb (a b : TaskType) : bool :=
  match a, b with
  | LOG, LOG | TIMEOUT, TIMEOUT | PROMISE, PROMISE | MAIN, MAIN => true
  | _, _ => false
  end.

Fixpoint Task_eqb (a b : Task) {struct a} : bool :=
  match a, b with
  | mkTask i1 ty1 c1 d1 ch1 l1, mkTask i2 ty2 c2 d2 ch2 l2 =>
      String.eqb i1 i2 && TaskType_eqb ty1 ty2 && String.eqb c1 c2 &&
      option_eqb Z.eqb d1 d2 &&
      match ch1, ch2 with
      | None, None => true
      | Some x, Some y =>
          (fix go (x y : list Task) {struct x} : bool :=
             match x, y with
             | [], [] => true
             | p :: x', q :: y' => Task_eqb p q && go x' y'
             | _, _ => false
             end) x y
      | _, _ => false
      end &&
      option_eqb Z.eqb l1 l2
  end.

Definition WebApiTask_eqb (a b : WebApiTask) : bool :=
  Task_eqb (api_task a) (api_task b) && (startTime a =? startTime b) &&
  (remainingTime a =? remainingTime b).

Definition Frame_eqb (a b : CallStackFrame) : bool :=
  String.eqb (f_id a) (f_id b) && String.eqb (f_name a) (f_name b) &&
  TaskType_eqb (f_type a) (f_type b) &&
  option_eqb (list_eqb Task_eqb) (linesOfCode a) (linesOfCode b) &&
  Nat.eqb (currentLineIndex a) (currentLineIndex b) &&
  option_eqb Z.eqb (highlightLine a) (highlightLine b).

Definition EngineState_eqb (a b : EngineState) : bool :=
  String.eqb (code a) (code b) &&
  list_eqb Task_eqb (parsedTasks a) (parsedTasks b) &&
  list_eqb Frame_eqb (callStack a) (callStack b) &&
  list_eqb WebApiTask_eqb (webApis a) (webApis b) &&
  list_eqb Task_eqb (microtaskQueue a) (microtaskQueue b) &&
  list_eqb Task_eqb (macrotaskQueue a) (macrotaskQueue b) &&
  list_eqb String.eqb (consoleOutput a) (consoleOutput b) &&
  Bool.eqb (isRunning a) (isRunning b) && (speed a =? speed b) &&
  Bool.eqb (isFinished a) (isFinished b) &&
  option_eqb Z.eqb (activeLine a) (activeLine b).

(** Induction on a task that reaches the tasks of its body. *)
Section TaskInduction.
Variable P : Task -> Prop.
Hypothesis step_case :
  forall i ty c d ch l,
    match ch with Some b => Forall P b | None => True end ->
    P (mkTask i ty c d ch l).

Fixpoint Task_nested_ind (t : Task) : P t :=
  match t with
  | mkTask i ty c d ch l =>
      step_case i ty c d ch l
        (match ch as o
               return match o with Some b => Forall P b | None => True end
         with
         | Some b =>
             (fix go (b : list Task) : Forall P b :=
                match b with
                | [] => Forall_nil P
                | x :: r => Forall_cons x (Task_nested_ind x) (go r)
                end) b
         | None => I
         end)
  end.
End TaskInduction.

(** *** States up to what a run cannot observe *)

(** The identifier of a queued microtask and of a frame, and the creation
    time of a pending timer, depend on the clock and the random draw; the
    auto-run flag and the speed depend on how the session was started.  No
    branch of [step] or of the timer reads any of them. *)
Definition eraseTask (t : Task) : Task :=
  mkTask EmptyString (type t) (content t) (delay t) (children t) (line t).

Definition eraseFrame (f : CallStackFrame) : CallStackFrame :=
  mkFrame EmptyString (f_name f) (f_type f) (linesOfCode f)
          (currentLineIndex f) (highlightLine f).

Definition eraseApi (a : WebApiTask) : WebApiTask :=
  mkWebApiTask (api_task a) 0 (remainingTime a).

Definition erase (s : EngineState) : EngineState :=
  mkEngine (code s) (parsedTasks s) (map eraseFrame (callStack s))
           (map eraseApi (webApis s)) (map eraseTask (microtaskQueue s))
           (macrotaskQueue s) (consoleOutput s) false 0
           (isFinished s) (activeLine s).

(** An event with its clock and random draw blanked. *)
Definition canon (e : Event) : Event :=
  match e with
  | EvStep _ _ => EvStep 0 EmptyString
  | EvTick => EvTick
  end.

Definition member (x : EngineState) (l : list EngineState) : bool :=
  existsb (EngineState_eqb x) l.

(** The erased states found from [frontier] by a step or a tick, added to
    [seen]. *)
Fixpoint explore (fuel : nat) (frontier seen : list EngineState)
  : list EngineState :=
  match fuel with
  | O => seen
  | S fuel' =>
      match frontier with
      | [] => seen
      | x :: rest =>
          if member x seen then explore fuel' rest seen
          else explore fuel'
                 (erase (apply x (EvStep 0 EmptyString)) ::
                  erase (apply x EvTick) :: rest)
                 (x :: seen)
      end
  end.

Definition reachSet (t : TimerSpelling) (m : MicroSpelling)
  : list EngineState :=
  explore 400 [erase (startOf (scenarioB t m))] [].

(** A set of erased states that a step and a tick map into itself. *)
Definition closed (R : list EngineState) : bool :=
  forallb (fun x => member (erase (apply x (EvStep 0 EmptyString))) R &&
                    member (erase (apply x EvTick)) R) R.

(** Every finished state of the set shows the expected output. *)
Definition finishedShow (out : list string) (R : list EngineState) : bool :=
  forallb (fun x => implb (isFinished x)
                          (list_eqb String.eqb (consoleOutput x) out)) R.

End Scenario.

(* ================================================================== *)
(** ** App.tsx: the handlers around the engine *)

Module Handlers.
Import Str Parser Engine.

(** [handleSpeedChange]: [setEngine(prev => ({ ...prev, speed: v }))] *)
Definition handleSpeedChange (v : Z) (prev : EngineState) : EngineState :=
  mkEngine (code prev) (parsedTasks prev) (callStack prev) (webApis prev)
           (microtaskQueue prev) (macrotaskQueue prev) (consoleOutput prev)
           (isRunning prev) v (isFinished prev) (activeLine prev).

(** The updater of [togglePlay] when the engine is not finished:
    [setEngine(prev => ({ ...prev, isRunning: !prev.isRunning }))] *)
Definition toggleRunning (prev : EngineState) : EngineState :=
  mkEngine (code prev) (parsedTasks prev) (callStack prev) (webApis prev)
           (microtaskQueue prev) (macrotaskQueue prev) (consoleOutput prev)
           (negb (isRunning prev)) (speed prev) (isFinished prev)
           (activeLine prev).

(** One turn of the loop of [extractLogsRecursive]: the message of [task]
    when it is a Log, then the messages found in its children (none when
    there are no children, or no child). *)
Fixpoint logsOfTask (task : Task) : list string :=
  match task with
  | mkTask _ ty c _ ch _ =>
      (match ty with LOG => [c] | _ => [] end) ++
      (match ch with
       | Some b => flat_map logsOfTask b
       | None => []
       end)
  end.

(** [extractLogsRecursive(tasks)] *)
Definition extractLogsRecursive (tasks : list Task) : list string :=
  flat_map logsOfTask tasks.

(** The verdict of the prediction game,
    [JSON.stringify(prediction) === JSON.stringify(engine.consoleOutput)]:
    the two arrays of strings hold the same strings in the same order. *)
Definition verdict (prediction : list string) (engine : EngineState) : bool :=
  if list_eq_dec string_dec prediction (consoleOutput engine)
  then true else false.

End Handlers.

(* ================================================================== *)
(** ** Measures and shapes used to state the engine's invariants *)

Module Shape.
Import Str Parser Engine Handlers Scenario.

(** A frame whose body is present and whose cursor has not run past it. *)
Definition frameOk (f : CallStackFrame) : Prop :=
  exists body, linesOfCode f = Some body /\
               (currentLineIndex f <= List.length body)%nat.

(** The instructions a frame has still to run. *)
Definition remaining (f : CallStackFrame) : list Task :=
  skipn (currentLineIndex f) (orEmpty (linesOfCode f)).

(** A tree laid out flat, every task after the tasks of its body: the
    order in which the parser draws identifiers. *)
Fixpoint postorderOf (t : Task) : list Task :=
  match t with
  | mkTask _ _ _ _ ch _ =>
      (match ch with
       | Some b => flat_map postorderOf b
       | None => []
       end) ++ [t]
  end.

Definition postorder (ts : list Task) : list Task := flat_map postorderOf ts.

(** The three kinds of task the parser builds: a Log with a non-empty
    message and neither delay nor body; a timer registration with one of
    the two timer labels, a delay that is not negative and a body; a
    microtask registration with one of the three labels, no delay and a
    body. *)
Definition shapeOk (t : Task) : Prop :=
  match type t with
  | LOG => content t <> EmptyString /\ delay t = None /\ children t = None
  | TIMEOUT =>
      (content t = "setTimeout" \/ content t = "setImmediate") /\
      (exists d, delay t = Some d /\ 0 <= d) /\
      (exists b, children t = Some b)
  | PROMISE =>
      (content t = "Promise.then" \/ content t = "queueMicrotask" \/
       content t = "process.nextTick") /\
      delay t = None /\ (exists b, children t = Some b)
  | MAIN => False
  end.

(** A whole tree of such tasks. *)
Definition wellFormed (ts : list Task) : Prop := Forall shapeOk (postorder ts).

(** The task sits on a line [n] of the text with [lo < n <= hi]. *)
Definition lineIn (lo hi : nat) (t : Task) : Prop :=
  exists n, line t = Some (Z.of_nat n) /\ (lo < n <= hi)%nat.

(** The identifiers drawn from the counter values [c], [c+1], ... *)
Definition taskNames (c n : nat) : list string :=
  map (fun k => ("task-" ++ ofNat k)%string) (seq c n).

(** The messages not yet printed: those of the instructions left in the
    frames, and those in the bodies held by pending timers and by the two
    queues. *)
Definition waitingLogs (s : EngineState) : list string :=
  flat_map (fun f => extractLogsRecursive (remaining f)) (callStack s) ++
  flat_map (fun a => extractLogsRecursive (orEmpty (children (api_task a))))
           (webApis s) ++
  flat_map (fun t => extractLogsRecursive (orEmpty (children t)))
           (microtaskQueue s) ++
  flat_map (fun t => extractLogsRecursive (orEmpty (children t)))
           (macrotaskQueue s).

(** Every instruction the engine may still run is well formed. *)
Definition waitingOk (s : EngineState) : Prop :=
  Forall (fun f => wellFormed (remaining f)) (callStack s) /\
  Forall (fun a => wellFormed (orEmpty (children (api_task a)))) (webApis s) /\
  Forall (fun t => wellFormed (orEmpty (children t))) (microtaskQueue s) /\
  Forall (fun t => wellFormed (orEmpty (children t))) (macrotaskQueue s).

(** No line terminator occurs in [s]. *)
Fixpoint oneLine (s : string) : bool :=
  match s with
  | EmptyString => true
  | String c r => negb (isLineTerminator c) && oneLine r
  end.

(** What a parse of the lines [lo+1 .. hi] entered with the counter at [c]
    returns: tasks of the three shapes, each on a line of the range, with
    identifiers drawn in order from [c] on, body first; [c'] is the counter
    it leaves. *)
Definition treeInv (lo hi c : nat) (ts : list Task) (c' : nat) : Prop :=
  Forall (fun t => shapeOk t /\ lineIn lo hi t) (postorder ts) /\
  map id (postorder ts) = taskNames c (List.length (postorder ts)) /\
  c' = (c + List.length (postorder ts))%nat.

(** The number of times the message [x] occurs in a list of messages. *)
Definition cnt (x : string) (l : list string) : nat := count_occ string_dec l x.

(** The messages still to print are accounted for: what has been printed
    and what is waiting make up the messages of the parsed tree. *)
Definition conserved (s : EngineState) : Prop :=
  waitingOk s /\
  forall x, cnt x (consoleOutput s ++ waitingLogs s)
            = cnt x (extractLogsRecursive (parsedTasks s)).

(** *** The work a state still holds *)

(** The ticks a pending timer with [r] ms left needs to reach the macrotask
    queue: one when it is due, one more per 100 ms started otherwise. *)
Definition ticksFor (r : Z) : nat :=
  if r <=? 0 then 1%nat else S (Z.to_nat ((r + 99) / 100)).

(** The steps and ticks an instruction costs from the moment it is under
    the cursor: one step to run it; for a timer also its ticks, the step
    that dequeues it, its body and the step that pops its frame; for a
    microtask with a body the dequeue, the body and the pop. *)
Fixpoint costOf (t : Task) : nat :=
  match t with
  | mkTask _ ty _ d ch _ =>
      match ty with
      | LOG | MAIN => 1
      | TIMEOUT =>
          1 + (ticksFor (orZero d) + 2 +
               match ch with
               | Some b => list_sum (map costOf b)
               | None => 0
               end)
      | PROMISE =>
          match ch with
          | Some b => 1 + (2 + list_sum (map costOf b))
          | None => 1
          end
      end
  end%nat.

Definition costs (l : list Task) : nat := list_sum (map costOf l).

Definition frameCost (f : CallStackFrame) : nat := S (costs (remaining f)).

Definition apiCost (a : WebApiTask) : nat :=
  (ticksFor (remainingTime a) + 2 + costs (orEmpty (children (api_task a))))%nat.

Definition entryCost (t : Task) : nat :=
  (2 + costs (orEmpty (children t)))%nat.

Definition weight (s : EngineState) : nat :=
  (list_sum (map frameCost (callStack s)) +
   list_sum (map apiCost (webApis s)) +
   list_sum (map entryCost (microtaskQueue s)) +
   list_sum (map entryCost (macrotaskQueue s)))%nat.

(** The timers whose countdown stays in the range where the subtraction of
    doubles is exact: a delay below [2^53]. *)
Definition delayOk (t : Task) : Prop := orZero (delay t) < Num.exactBound.

(** A whole tree of such tasks. *)
Definition delaysOk (ts : list Task) : Prop := Forall delayOk (postorder ts).

(** A state all of whose timers, pending or still to be registered, count
    down in that range. *)
Definition bounded (s : EngineState) : Prop :=
  Forall (fun f => delaysOk (remaining f)) (callStack s) /\
  Forall (fun a => remainingTime a < Num.exactBound /\
                   delaysOk (orEmpty (children (api_task a)))) (webApis s) /\
  Forall (fun t => delaysOk (orEmpty (children t))) (microtaskQueue s) /\
  Forall (fun t => delaysOk (orEmpty (children t))) (macrotaskQueue s).

(** Auto-play seen as a schedule: [n] rounds of one step and one tick. *)
Fixpoint rounds (now : Z) (random : string) (n : nat) : list Event :=
  match n with
  | O => []
  | S n' => EvStep now random :: EvTick :: rounds now random n'
  end.

(** [n] ticks in a row. *)
Fixpoint ticks (n : nat) (s : EngineState) : EngineState :=
  match n with
  | O => s
  | S n' => tick (ticks n' s)
  end.

(** A pending timer with [n] tick intervals taken off its remaining time. *)
Definition loweredBy (n : nat) (a : WebApiTask) : WebApiTask :=
  mkWebApiTask (api_task a) (startTime a)
               (remainingTime a - Z.of_nat n * tickInterval).

(** The messages of the Log instructions of a list, in order, leaving the
    bodies of its registrations aside. *)
Definition topLogs (tasks : list Task) : list string :=
  flat_map (fun t => match type t with LOG => [content t] | _ => [] end) tasks.

(** The main frame with its cursor at [k]. *)
Definition mainAt (tasks : list Task) (k : nat) : CallStackFrame :=
  mkFrame "main" "main()" MAIN (Some tasks) k (Some 0).

(** While the main frame is on the stack, the output is what the top-level
    Logs passed so far have printed; afterwards it starts with all of
    them. *)
Definition syncFirst (s : EngineState) : Prop :=
  (exists k, callStack s = [mainAt (parsedTasks s) k] /\
             consoleOutput s = topLogs (firstn k (parsedTasks s))) \/
  (exists later, consoleOutput s = topLogs (parsedTasks s) ++ later).

(** Strings of decimal digits, and strings of white space. *)
Fixpoint allDigits (s : string) : bool :=
  match s with
  | EmptyString => true
  | String c r => isDigit c && allDigits r
  end.

Fixpoint allSpaces (s : string) : bool :=
  match s with
  | EmptyString => true
  | String c r => isSpace c && allSpaces r
  end.

(** At most one frame, in order. *)
Definition stackOk (s : EngineState) : Prop :=
  (List.length (callStack s) <= 1)%nat /\ Forall frameOk (callStack s).

(** A state with its auto-run flag set to [r]. *)
Definition withRunning (r : bool) (s : EngineState) : EngineState :=
  mkEngine (code s) (parsedTasks s) (callStack s) (webApis s)
           (microtaskQueue s) (macrotaskQueue s) (consoleOutput s)
           r (speed s) (isFinished s) (activeLine s).

(** The number of [step] events of a run. *)
Definition stepCount (evs : list Event) : nat :=
  List.length (filter (fun e => match e with EvStep _ _ => true | EvTick => false end) evs).

End Shape.

(* ================================================================== *)
(** ** constants.ts: the sample generator *)

Module Generator.
Import Str Parser ParserView Engine Handlers Shape.

(** [Record<FeatureKey, boolean>] *)
Record Features := mkFeatures {
  f_log : bool;
  f_timeout : bool;
  f_promise : bool;
  f_microtask : bool;
  f_nextTick : bool;
  f_setImmediate : bool
}.

Inductive Complexity := simple | complex.

Definition INITIAL_FEATURES : Features :=
  mkFeatures true true true false false false.

(** The line feed of the template literals. *)
Definition lf : string := str nl.

(** [features.log ? "console.log('msg');" : "// code"] *)
Definition logOrComment (features : Features) (msg : string) : string :=
  if f_log features then ("console.log('" ++ msg ++ "');")%string
  else "// code".

(** The array [parts] of [generateCode] at its [join]. *)
Definition generateParts (complexity : Complexity) (features : Features)
  : list string :=
  (if f_log features then ["console.log('Start');"] else []) ++
  (match complexity with
   | simple =>
       (if f_nextTick features
        then [("process.nextTick(() => {" ++ lf ++ "  " ++
               logOrComment features "Next Tick" ++ lf ++ "});")%string]
        else []) ++
       (if f_promise features
        then [("Promise.resolve().then(() => {" ++ lf ++ "  " ++
               logOrComment features "Promise" ++ lf ++ "});")%string]
        else []) ++
       (if f_microtask features
        then [("queueMicrotask(() => {" ++ lf ++ "  " ++
               logOrComment features "Microtask" ++ lf ++ "});")%string]
        else []) ++
       (if f_timeout features
        then [("setTimeout(() => {" ++ lf ++ "  " ++
               logOrComment features "Timeout" ++ lf ++ "}, 0);")%string]
        else []) ++
       (if f_setImmediate features
        then [("setImmediate(() => {" ++ lf ++ "  " ++
               logOrComment features "Immediate" ++ lf ++ "});")%string]
        else [])
   | complex =>
       (if f_timeout features
        then
          let inner0 := EmptyString in
          let inner1 :=
            if f_log features
            then (inner0 ++ "  console.log('Timeout 1');" ++ lf)%string
            else inner0 in
          let inner2 :=
            if f_promise features
            then (inner1 ++ "  Promise.resolve().then(() => {" ++ lf ++ "    " ++
                  logOrComment features "Promise inside Timeout" ++ lf ++
                  "  });")%string
            else inner1 in
          let inner3 :=
            if f_nextTick features
            then (inner2 ++ lf ++ "  process.nextTick(() => {" ++ lf ++ "    " ++
                  logOrComment features "Next Tick inside Timeout" ++ lf ++
                  "  });")%string
            else inner2 in
          [("setTimeout(() => {" ++ lf ++ inner3 ++ lf ++ "}, 0);")%string]
        else []) ++
       (if f_promise features
        then
          let inner0 := EmptyString in
          let inner1 :=
            if f_log features
            then (inner0 ++ "  console.log('Promise 1');" ++ lf)%string
            else inner0 in
          let inner2 :=
            if f_timeout features
            then (inner1 ++ "  setTimeout(() => {" ++ lf ++ "    " ++
                  logOrComment features "Timeout inside Promise" ++ lf ++
                  "  }, 0);")%string
            else inner1 in
          [("Promise.resolve().then(() => {" ++ lf ++ inner2 ++ lf ++ "});")%string]
        else []) ++
       (if f_setImmediate features
        then
          let inner0 := EmptyString in
          let inner1 :=
            if f_log features
            then (inner0 ++ "  console.log('Immediate 1');" ++ lf)%string
            else inner0 in
          let inner2 :=
            if f_microtask features
            then (inner1 ++ "  queueMicrotask(() => {" ++ lf ++ "    " ++
                  logOrComment features "Microtask inside Immediate" ++ lf ++
                  "  });")%string
            else inner1 in
          [("setImmediate(() => {" ++ lf ++ inner2 ++ lf ++ "});")%string]
        else [])
   end) ++
  (if f_log features then ["console.log('End');"] else []).

(** [parts.join(sep)] *)
Fixpoint joinWith (sep : string) (parts : list string) : string :=
  match parts with
  | [] => EmptyString
  | [x] => x
  | x :: r => (x ++ sep ++ joinWith sep r)%string
  end.

(** [generateCode(complexity, features)] *)
Definition generateCode (complexity : Complexity) (features : Features)
  : string :=
  joinWith (lf ++ lf) (generateParts complexity features).



(** The parser's scan and the count of brace characters find the same
    closing line from every line [i] of every range [0 .. endLine). *)
Definition scansAgree (lines : list string) : bool :=
  forallb (fun endLine =>
    forallb (fun i =>
      match findClose lines i endLine with
      | Ok j => Nat.eqb j (specFindClose lines i endLine)
      | _ => false
      end) (seq 0 endLine))
    (seq 0 (S (List.length lines))).

End Generator.

(* ================================================================== *)
(** * Properties *)

Module NumFacts.
Import Num.

Lemma roundPos_exact z : 0 < z < exactBound -> roundPos z = z.
Proof.
  intros [Hp Hb]. unfold roundPos.
  assert (Z.log2 z < 53) as Hl.
  { apply Z.log2_lt_pow2; [exact Hp|]. exact Hb. }
  destruct (Z.leb_spec (Z.log2 z) 52); [reflexivity|lia].
Qed.

(** Rounding leaves every integer below [2^53] in magnitude as it is. *)
Lemma roundDouble_exact z :
  - exactBound < z < exactBound -> roundDouble z = z.
Proof.
  intros Hz. unfold roundDouble.
  destruct (Z.eqb_spec z 0) as [->|Hne]; [reflexivity|].
  destruct (Z.ltb_spec 0 z).
  - apply roundPos_exact. lia.
  - rewrite roundPos_exact by lia. lia.
Qed.

Lemma roundPos_nonneg z : 0 < z -> 0 <= roundPos z.
Proof.
  intros Hp. unfold roundPos.
  destruct (Z.leb_spec (Z.log2 z) 52) as [|Hl]; [lia|]. cbv zeta.
  set (k := Z.log2 z - 52).
  assert (0 < 2 ^ k) as Hk by (apply Z.pow_pos_nonneg; lia).
  assert (0 <= z / 2 ^ k) as Hq by (apply Z.div_pos; lia).
  apply Z.min_glb; [|unfold infinity; apply Z.pow_nonneg; lia].
  apply Z.mul_nonneg_nonneg; [|lia].
  destruct (z mod 2 ^ k <? 2 ^ (k - 1)); [exact Hq|].
  destruct (2 ^ (k - 1) <? z mod 2 ^ k); [lia|].
  destruct (Z.even (z / 2 ^ k)); lia.
Qed.

Lemma roundDouble_nonneg z : 0 <= z -> 0 <= roundDouble z.
Proof.
  intros Hz. unfold roundDouble.
  destruct (Z.eqb_spec z 0); [lia|].
  destruct (Z.ltb_spec 0 z); [|lia]. now apply roundPos_nonneg.
Qed.

End NumFacts.

Module EngineFacts.
Import Str Parser Engine Observe.

Lemma unsnoc_snoc {A} (l : list A) (x : A) : unsnoc (l ++ [x]) = Some (l, x).
Proof.
  induction l as [|a l IH]; simpl; [reflexivity|].
  now rewrite IH.
Qed.

Lemma unsnoc_None {A} (l : list A) : unsnoc l = None -> l = [].
Proof.
  destruct l as [|a l]; [reflexivity|]; simpl.
  destruct (unsnoc l) as [[i t]|]; discriminate.
Qed.

Lemma unsnoc_Some {A} (l i : list A) (t : A) :
  unsnoc l = Some (i, t) -> l = i ++ [t].
Proof.
  revert i t; induction l as [|a l IH]; intros i t; simpl; [discriminate|].
  destruct (unsnoc l) as [[i' t']|] eqn:E.
  - intros [= <- <-]. simpl. f_equal. now apply IH.
  - intros [= <- <-]. now rewrite (unsnoc_None _ E).
Qed.

Lemma unsnoc_nil_iff {A} (l : list A) : unsnoc l = None <-> l = [].
Proof.
  split; [apply unsnoc_None|]. now intros ->.
Qed.

(** The accumulator of the timer's [forEach], in closed form. *)
Lemma fold_tickEntry (l : list WebApiTask) u m h :
  fold_left tickEntry l (u, m, h) =
  (u ++ map decremented (filter (fun a => negb (remainingTime a <=? 0)) l),
   m ++ map promoted (filter (fun a => remainingTime a <=? 0) l),
   match l with [] => h | _ => true end).
Proof.
  revert u m h; induction l as [|a l IH]; intros u m h; simpl.
  - now rewrite !app_nil_r.
  - destruct (remainingTime a <=? 0) eqn:E; simpl; rewrite IH;
      rewrite <- !app_assoc; simpl; destruct l; reflexivity.
Qed.

(** Below [2^53] the timer's subtraction is exact. *)
Lemma decremented_exact a :
  0 < remainingTime a < Num.exactBound ->
  remainingTime (decremented a) = remainingTime a - 100.
Proof.
  intros Hr. unfold decremented, tickInterval. cbn [remainingTime].
  apply NumFacts.roundDouble_exact. unfold Num.exactBound in *. lia.
Qed.

(** A tick, in closed form. *)
Lemma tick_closed_form s :
  tick s =
  mkEngine (code s) (parsedTasks s) (callStack s)
    (map decremented (filter (fun a => negb (remainingTime a <=? 0)) (webApis s)))
    (microtaskQueue s)
    (macrotaskQueue s ++
     map promoted (filter (fun a => remainingTime a <=? 0) (webApis s)))
    (consoleOutput s) (isRunning s) (speed s) (isFinished s) (activeLine s).
Proof.
  unfold tick. destruct (webApis s) as [|a l] eqn:E.
  - simpl. rewrite app_nil_r. destruct s; simpl in *; now subst.
  - rewrite fold_tickEntry. reflexivity.
Qed.

(** C10. [step] leaves the code text, the parsed task tree and the speed
    setting as they were, whatever the state and whatever branch it
    takes. *)
Theorem step_frame_condition now random (s : EngineState) :
  code (step now random s) = code s /\
  parsedTasks (step now random s) = parsedTasks s /\
  speed (step now random s) = speed s.
Proof.
  unfold step.
  destruct (unsnoc (callStack s)) as [[below frame]|].
  - destruct (currentTask frame); simpl; auto.
  - destruct (microtaskQueue s); [destruct (macrotaskQueue s)|]; simpl; auto.
Qed.

(** C2. With an empty call stack and a non-empty microtask queue, [step]
    removes the head of the microtask queue, pushes the frame built from it
    and leaves the macrotask queue as it was; and whatever the stack, a step
    taken while the microtask queue is non-empty never changes the macrotask
    queue. *)
Theorem step_microtask_priority now random (s : EngineState)
  (nextMicro : Task) (rest : list Task)
  (Hstack : callStack s = [])
  (Hmicro : microtaskQueue s = nextMicro :: rest) :
  microtaskQueue (step now random s) = rest /\
  callStack (step now random s) = [microFrame nextMicro] /\
  linesOfCode (microFrame nextMicro) = Some (orEmpty (children nextMicro)) /\
  currentLineIndex (microFrame nextMicro) = 0%nat /\
  macrotaskQueue (step now random s) = macrotaskQueue s /\
  (forall now' random' s',
      microtaskQueue s' <> [] ->
      macrotaskQueue (step now' random' s') = macrotaskQueue s').
Proof.
  repeat split.
  - unfold step. rewrite Hstack, Hmicro. reflexivity.
  - unfold step. rewrite Hstack, Hmicro. reflexivity.
  - unfold step. rewrite Hstack, Hmicro. reflexivity.
  - intros now' random' s' Hne. unfold step.
    destruct (unsnoc (callStack s')) as [[below frame]|].
    + destruct (currentTask frame); reflexivity.
    + destruct (microtaskQueue s'); [congruence|reflexivity].
Qed.

(** An instance: one microtask and one promoted timer wait on an empty
    stack. *)
Lemma step_microtask_priority_witness :
  let m := mkTask "micro-1-0.5" PROMISE "Promise Callback" None (Some []) (Some 3) in
  let t := mkTask "task-0" TIMEOUT "Timeout Callback" (Some 0) (Some []) (Some 1) in
  let s := mkEngine "x" [] [] [] [m] [t] [] false 1000 false None in
  callStack s = [] /\ microtaskQueue s = [m] /\
  microtaskQueue (step 2 "0.25" s) = [] /\
  callStack (step 2 "0.25" s) = [microFrame m] /\
  macrotaskQueue (step 2 "0.25" s) = [t].
Proof.
  intros m t s.
  split; [reflexivity|]. split; [reflexivity|].
  pose proof (step_microtask_priority 2 "0.25" s m [] eq_refl eq_refl) as H.
  destruct H as (H1 & H2 & _ & _ & H3 & _).
  exact (conj H1 (conj H2 H3)).
Defined.

(** C9, as the engine has it.  A tick of the timer removes from the
    pending set exactly the entries whose remaining time is at or below zero
    and appends them, in order, to the macrotask queue with every property
    of the task but the label kept (so the identifier is the one given at
    registration); the label stays [setImmediate] when it was that, and is
    [Timeout Callback] otherwise.  Every other entry stays, with its
    remaining time replaced by the result of subtracting the tick interval
    of 100 as doubles do: exactly 100 less when the remaining time is below
    [2^53], the nearest double otherwise.  No other component of the state
    changes. *)
Theorem tick_promotes_and_decrements (s : EngineState) :
  let due := fun a => remainingTime a <=? 0 in
  webApis (tick s) = map decremented (filter (fun a => negb (due a)) (webApis s)) /\
  macrotaskQueue (tick s) = macrotaskQueue s ++ map promoted (filter due (webApis s)) /\
  (forall a, id (promoted a) = id (api_task a) /\
             type (promoted a) = type (api_task a) /\
             delay (promoted a) = delay (api_task a) /\
             children (promoted a) = children (api_task a) /\
             line (promoted a) = line (api_task a) /\
             content (promoted a) =
               (if String.eqb (content (api_task a)) "setImmediate"
                then "setImmediate" else "Timeout Callback")) /\
  (forall a, remainingTime (decremented a) =
               Num.roundDouble (remainingTime a - 100) /\
             (0 < remainingTime a < Num.exactBound ->
              remainingTime (decremented a) = remainingTime a - 100) /\
             api_task (decremented a) = api_task a /\
             startTime (decremented a) = startTime a) /\
  code (tick s) = code s /\ parsedTasks (tick s) = parsedTasks s /\
  callStack (tick s) = callStack s /\
  microtaskQueue (tick s) = microtaskQueue s /\
  consoleOutput (tick s) = consoleOutput s /\
  isRunning (tick s) = isRunning s /\ speed (tick s) = speed s /\
  isFinished (tick s) = isFinished s /\ activeLine (tick s) = activeLine s.
Proof.
  intros due. rewrite tick_closed_form.
  split; [reflexivity|]. split; [reflexivity|]. split.
  { intros a. repeat split; reflexivity. }
  split.
  { intros a. split; [reflexivity|]. split; [|split; reflexivity].
    intros Hr. apply decremented_exact. exact Hr. }
  repeat split; reflexivity.
Qed.

(** An instance: a timer with 250 ms left beside one that is due. *)
Lemma tick_promotes_and_decrements_witness :
  let slow := mkWebApiTask (mkTask "task-0" TIMEOUT "setTimeout" (Some 250) (Some []) (Some 1)) 7 250 in
  let fast := mkWebApiTask (mkTask "task-1" TIMEOUT "setImmediate" (Some 0) (Some []) (Some 3)) 8 0 in
  let s := mkEngine "x" [] [] [slow; fast] [] [] [] false 1000 false None in
  0 < remainingTime slow < Num.exactBound /\
  remainingTime (decremented slow) = remainingTime slow - 100 /\
  webApis (tick s) = [decremented slow] /\
  macrotaskQueue (tick s) = [promoted fast].
Proof.
  intros slow fast s.
  assert (0 < remainingTime slow < Num.exactBound) as Hr
    by (split; reflexivity).
  destruct (tick_promotes_and_decrements s) as (Hw & Hm & _ & Hd & _).
  split; [exact Hr|].
  split; [exact (proj1 (proj2 (Hd slow)) Hr)|].
  split; [exact Hw | exact Hm].
Defined.

(** C9, as the specification words it, fails: the timer's subtraction is
    that of doubles, and a timer registered with a delay of [10^21] ms keeps
    that remaining time through a tick instead of losing 100. *)
Lemma tick_exact_decrement_counterexample :
  let text := join_nl ["setTimeout(() => {"; "}, 1000000000000000000000);"] in
  let s := step 1 "0.1" (startOf text) in
  reachable s /\
  map remainingTime (webApis s) = [1000000000000000000000] /\
  map remainingTime (webApis (tick s)) = [1000000000000000000000] /\
  map remainingTime (webApis (tick s)) <> [1000000000000000000000 - 100].
Proof.
  intros text s.
  split.
  { apply (reach_event _ (EvStep 1 "0.1")).
    unfold startOf.
    destruct (resetEngine 0 text false initialState) as [s0| |] eqn:E;
      try (vm_compute in E; discriminate).
    exact (reach_reset 0%nat text false initialState s0 E). }
  split; [vm_compute; reflexivity|].
  split; [vm_compute; reflexivity|].
  vm_compute. discriminate.
Qed.


Lemma step_settled now random s : settled s -> settled (step now random s).
Proof.
  unfold settled, allEmpty, step. intros H.
  destruct (unsnoc (callStack s)) as [[below frame]|] eqn:Est.
  - apply unsnoc_Some in Est.
    assert (isFinished s = true -> False) as Hf.
    { intros F. destruct (H F) as ((Hs & _) & _). rewrite Hs in Est.
      now destruct below. }
    destruct (currentTask frame); simpl; intros F; now destruct (Hf F).
  - apply unsnoc_None in Est.
    destruct (microtaskQueue s) as [|m q] eqn:Em.
    + destruct (macrotaskQueue s) as [|t q'] eqn:Et.
      * destruct (webApis s) eqn:Ew; simpl; [|discriminate].
        intros _. rewrite Est. auto.
      * simpl. intros F. destruct (H F) as ((_ & _ & _ & Hq) & _).
        discriminate.
    + simpl. intros F. destruct (H F) as ((_ & _ & Hq & _) & _).
      discriminate.
Qed.

Lemma tick_settled s : settled s -> settled (tick s).
Proof.
  unfold settled, allEmpty, tick. intros H.
  destruct (webApis s) as [|a l] eqn:Ew; [now rewrite Ew|].
  rewrite fold_tickEntry. cbn [negb]. simpl.
  intros F. destruct (H F) as ((_ & Hw & _) & _). discriminate.
Qed.

Lemma reachable_settled s : reachable s -> settled s.
Proof.
  induction 1 as [c newCode autoPlay prev s Hr | s e _ IH].
  - unfold resetEngine in Hr.
    destruct (parseCode c newCode) as [[tasks c']| |]; try discriminate.
    injection Hr as <-. intros F. discriminate.
  - destruct e; simpl; [now apply step_settled | now apply tick_settled].
Qed.

Lemma step_finished_fixed now random s :
  settled s -> isFinished s = true -> step now random s = s.
Proof.
  intros H F. destruct (H F) as ((Hs & Hw & Hm & Ht) & Ha & Hr).
  unfold step. rewrite Hs, Hm, Ht. simpl. rewrite Hw.
  destruct s; simpl in *; subst; reflexivity.
Qed.

Lemma step_finished_iff now random s :
  settled s -> (isFinished (step now random s) = true <-> allEmpty s).
Proof.
  intros H. split.
  - intros F. unfold step in F.
    destruct (unsnoc (callStack s)) as [[below frame]|] eqn:Est.
    + assert (isFinished s = true) as F'
        by (destruct (currentTask frame); exact F).
      now destruct (H F').
    + apply unsnoc_None in Est.
      destruct (microtaskQueue s) as [|m q] eqn:Em.
      * destruct (macrotaskQueue s) as [|t q'] eqn:Et.
        -- destruct (webApis s) eqn:Ew; [|discriminate].
           unfold allEmpty. auto.
        -- simpl in F. destruct (H F) as ((_ & _ & _ & Hq) & _).
           congruence.
      * simpl in F. destruct (H F) as ((_ & _ & Hq & _) & _). congruence.
  - intros (Hs & Hw & Hm & Ht). unfold step.
    rewrite Hs, Hm, Ht. simpl. now rewrite Hw.
Qed.

(** C3, as the engine has it.  In every state of a session, a step ends
    with the finished flag set exactly when the stack, the pending set and
    both queues were all empty before that step, and then they are all
    empty after it too; and a step taken in a finished state returns that
    state. *)
Theorem finished_flag_after_step (s : EngineState) (Hs : reachable s)
  now random :
  (isFinished (step now random s) = true <-> allEmpty s) /\
  (isFinished (step now random s) = true -> allEmpty (step now random s)) /\
  (isFinished s = true -> step now random s = s).
Proof.
  pose proof (reachable_settled s Hs) as H.
  split; [now apply step_finished_iff|]. split.
  - intros F. now destruct (step_settled now random s H F).
  - now apply step_finished_fixed.
Qed.

(** An instance: the one-line program that logs [A], after two steps. *)
Lemma finished_flag_after_step_witness :
  let s := run [EvStep 1 "0.1"; EvStep 2 "0.2"] (startOf "console.log('A');") in
  reachable s /\
  (isFinished (step 3 "0.3" s) = true <-> allEmpty s) /\
  (isFinished (step 3 "0.3" s) = true -> allEmpty (step 3 "0.3" s)) /\
  (isFinished s = true -> step 3 "0.3" s = s).
Proof.
  intros s.
  assert (reachable s) as Hs.
  { unfold s, run. simpl fold_left.
    apply (reach_event _ (EvStep 2 "0.2")), (reach_event _ (EvStep 1 "0.1")).
    apply (reach_reset 0%nat "console.log('A');" false initialState).
    reflexivity. }
  split; [exact Hs|].
  exact (finished_flag_after_step s Hs 3 "0.3").
Defined.

(** C3, as the specification words it, fails: for the one-line program
    that logs [A], the second step pops the main frame and leaves the stack,
    the pending set and both queues empty, yet the finished flag is still
    down after that step. *)
Lemma finished_iff_all_empty_counterexample :
  let s := step 1 "0.1" (startOf "console.log('A');") in
  let s' := step 2 "0.2" s in
  reachable s /\ allEmpty s' /\ isFinished s' = false /\
  ~ (isFinished s' = true <-> allEmpty s').
Proof.
  intros s s'.
  assert (allEmpty s') as He by (repeat split).
  assert (isFinished s' = false) as Hf by reflexivity.
  repeat split; try reflexivity.
  - apply (reach_event _ (EvStep 1 "0.1")).
    apply (reach_reset 0%nat "console.log('A');" false initialState).
    reflexivity.
  - intros [_ H]. specialize (H He). rewrite Hf in H. discriminate.
Qed.

Lemma microLabel_nextTick rawLine :
  String.eqb (microLabel rawLine) "process.nextTick" =
  includes "process.nextTick" rawLine.
Proof.
  unfold microLabel.
  destruct (includes "process.nextTick" rawLine); [reflexivity|].
  destruct (includes "queueMicrotask" rawLine); reflexivity.
Qed.

(** C5, as the engine has it.  When the instruction under the cursor of the
    top frame is a microtask registration with a body, [step] appends one
    new task to the microtask queue and pushes no frame.  The new task wraps
    the registration's body, keeps its source line, and is named by a
    fresh [micro-<clock>-<random>] identifier; its label is
    [process.nextTick] for a registration labelled so by the parser and
    [Promise Callback] for every other one, so the promise and the
    [queueMicrotask] spellings share a label. *)
Theorem microtask_registration_enqueues now random (s : EngineState)
  (below : list CallStackFrame) (frame : CallStackFrame)
  (task : Task) (body : list Task)
  (Hstack : callStack s = below ++ [frame])
  (Htask : currentTask frame = Some task)
  (Htype : type task = PROMISE)
  (Hbody : children task = Some body) :
  let entry :=
    mkTask (microId now random) PROMISE
           (if String.eqb (content task) "process.nextTick"
            then "process.nextTick" else "Promise Callback")
           None (Some body) (line task) in
  microtaskQueue (step now random s) = microtaskQueue s ++ [entry] /\
  callStack (step now random s) = below ++ [advance frame] /\
  (forall rawLine, content task = microLabel rawLine ->
     content entry = if includes "process.nextTick" rawLine
                     then "process.nextTick" else "Promise Callback").
Proof.
  intros entry. unfold step.
  rewrite Hstack, unsnoc_snoc, Htask, Htype, Hbody. simpl.
  repeat split.
  intros rawLine E. rewrite E, microLabel_nextTick. reflexivity.
Qed.

(** An instance: the main frame is about to run a [queueMicrotask]
    registration. *)
Lemma microtask_registration_enqueues_witness :
  let body := [mkTask "task-0" LOG "C" None None (Some 2)] in
  let task := mkTask "task-1" PROMISE "queueMicrotask" None (Some body) (Some 1) in
  let frame := mkFrame "main" "main()" MAIN (Some [task]) 0 (Some 0) in
  let s := mkEngine "x" [task] [frame] [] [] [] [] false 1000 false None in
  callStack s = [] ++ [frame] /\ currentTask frame = Some task /\
  type task = PROMISE /\ children task = Some body /\
  microtaskQueue (step 5 "0.75" s) =
    [mkTask "micro-5-0.75" PROMISE "Promise Callback" None (Some body) (Some 1)] /\
  callStack (step 5 "0.75" s) = [advance frame].
Proof.
  intros body task frame s.
  do 4 (split; [reflexivity|]).
  pose proof (microtask_registration_enqueues 5 "0.75" s [] frame task body
                eq_refl eq_refl eq_refl eq_refl) as H.
  destruct H as (H1 & H2 & _).
  split; [exact H1 | exact H2].
Defined.

(** C5, as the specification words it, fails: the promise spelling and the
    [queueMicrotask] spelling are told apart by the parser, but the entries
    [step] queues for them carry the same label. *)
Lemma distinct_microtask_labels_counterexample :
  let p1 := join_nl ["Promise.resolve().then(() => {"; "});"] in
  let p2 := join_nl ["queueMicrotask(() => {"; "});"] in
  let q1 := microtaskQueue (step 1 "0.1" (startOf p1)) in
  let q2 := microtaskQueue (step 1 "0.1" (startOf p2)) in
  map content (parsedTasks (startOf p1)) = ["Promise.then"] /\
  map content (parsedTasks (startOf p2)) = ["queueMicrotask"] /\
  map content q1 = ["Promise Callback"] /\
  map content q2 = ["Promise Callback"] /\
  ~ (map content q1 <> map content q2).
Proof.
  intros p1 p2 q1 q2.
  do 4 (split; [reflexivity|]).
  intros H. apply H. reflexivity.
Qed.

(** *** Queue discipline *)

Lemma fifo_append (q enq : list Task) :
  dequeuedOf q (q ++ enq) ++ (q ++ enq) = q ++ enqueuedOf q (q ++ enq).
Proof.
  unfold enqueuedOf, dequeuedOf.
  rewrite length_app.
  replace (List.length q + List.length enq <? List.length q)%nat with false
    by (symmetry; apply Nat.ltb_ge; lia).
  simpl. rewrite Nat.sub_0_r, skipn_app, Nat.sub_diag, skipn_all. reflexivity.
Qed.

Lemma fifo_remove (h : Task) (q' : list Task) :
  dequeuedOf (h :: q') q' ++ q' = (h :: q') ++ enqueuedOf (h :: q') q'.
Proof.
  unfold enqueuedOf, dequeuedOf. simpl List.length.
  replace (List.length q' <? S (List.length q'))%nat with true
    by (symmetry; apply Nat.ltb_lt; lia).
  simpl. rewrite Nat.sub_0_r, skipn_all, app_nil_r. reflexivity.
Qed.

Lemma fifo_move (q q' : list Task) :
  (exists enq, q' = q ++ enq) \/ (exists h, q = h :: q') ->
  dequeuedOf q q' ++ q' = q ++ enqueuedOf q q'.
Proof.
  intros [[enq ->]|[h ->]]; [apply fifo_append | apply fifo_remove].
Qed.

Lemma step_micro_shape now random s :
  (exists enq, (List.length enq <= 1)%nat /\
     microtaskQueue (step now random s) = microtaskQueue s ++ enq) \/
  (exists h, callStack s = [] /\
     microtaskQueue s = h :: microtaskQueue (step now random s)).
Proof.
  unfold step.
  destruct (unsnoc (callStack s)) as [[below frame]|] eqn:Est.
  - left. destruct (currentTask frame) as [task|]; simpl.
    + destruct (type task);
        try solve [exists nil; rewrite app_nil_r; simpl; auto].
      destruct (children task) as [body|].
      * exists (microTaskOf now random task body :: nil). simpl. auto.
      * exists nil. rewrite app_nil_r; simpl; auto.
    + exists nil. rewrite app_nil_r; simpl; auto.
  - apply unsnoc_None in Est.
    destruct (microtaskQueue s) as [|m q].
    + left. exists nil. destruct (macrotaskQueue s); simpl; auto.
    + right. exists m. simpl. auto.
Qed.

Lemma step_macro_shape now random s :
  macrotaskQueue (step now random s) = macrotaskQueue s \/
  (exists h, callStack s = [] /\ microtaskQueue s = [] /\
     macrotaskQueue s = h :: macrotaskQueue (step now random s)).
Proof.
  unfold step.
  destruct (unsnoc (callStack s)) as [[below frame]|] eqn:Est.
  - left. destruct (currentTask frame); reflexivity.
  - apply unsnoc_None in Est.
    destruct (microtaskQueue s) as [|m q]; [|now left].
    destruct (macrotaskQueue s) as [|t q']; [now left|].
    right. exists t. simpl. auto.
Qed.

Lemma tick_queue_shape s :
  microtaskQueue (tick s) = microtaskQueue s /\
  exists enq, macrotaskQueue (tick s) = macrotaskQueue s ++ enq.
Proof.
  rewrite tick_closed_form. cbn. split; [reflexivity|].
  eexists. reflexivity.
Qed.

Lemma apply_micro_move s e :
  (exists enq, microtaskQueue (apply s e) = microtaskQueue s ++ enq) \/
  (exists h, microtaskQueue s = h :: microtaskQueue (apply s e)).
Proof.
  destruct e as [now random|]; simpl.
  - destruct (step_micro_shape now random s) as [(enq & _ & H)|(h & _ & H)];
      [left; now exists enq | right; now exists h].
  - left. exists nil. rewrite app_nil_r. apply tick_queue_shape.
Qed.

Lemma apply_macro_move s e :
  (exists enq, macrotaskQueue (apply s e) = macrotaskQueue s ++ enq) \/
  (exists h, macrotaskQueue s = h :: macrotaskQueue (apply s e)).
Proof.
  destruct e as [now random|]; simpl.
  - destruct (step_macro_shape now random s) as [H|(h & _ & _ & H)];
      [left; exists nil; now rewrite app_nil_r | right; now exists h].
  - left. apply tick_queue_shape.
Qed.

Lemma history_fifo (queue : EngineState -> list Task) :
  (forall s e,
      (exists enq, queue (apply s e) = queue s ++ enq) \/
      (exists h, queue s = h :: queue (apply s e))) ->
  forall evs s,
    fst (history queue evs s) ++ queue (run evs s) =
    queue s ++ snd (history queue evs s).
Proof.
  intros Hmove evs. induction evs as [|e r IH]; intros s; simpl.
  - now rewrite app_nil_r.
  - specialize (IH (apply s e)).
    destruct (history queue r (apply s e)) as [d n]. simpl in *.
    rewrite <- app_assoc, IH, !app_assoc. f_equal.
    apply fifo_move, Hmove.
Qed.

(** C7. Each queue is first-in first-out.  A step either appends at most
    one entry at the tail of the microtask queue or, on an empty stack,
    removes its head; it never adds to the macrotask queue and removes only
    its head, on an empty stack with no microtask waiting.  A tick leaves
    the microtask queue alone and only appends to the macrotask queue.
    Hence along every run, for either queue, the entries dequeued so far
    followed by the entries still queued are the entries initially queued
    followed by the entries enqueued so far, all in order. *)
Theorem queues_are_fifo :
  (forall now random s,
      ((exists enq, (List.length enq <= 1)%nat /\
          microtaskQueue (step now random s) = microtaskQueue s ++ enq) \/
       (exists h, callStack s = [] /\
          microtaskQueue s = h :: microtaskQueue (step now random s))) /\
      (macrotaskQueue (step now random s) = macrotaskQueue s \/
       (exists h, callStack s = [] /\ microtaskQueue s = [] /\
          macrotaskQueue s = h :: macrotaskQueue (step now random s)))) /\
  (forall s,
      microtaskQueue (tick s) = microtaskQueue s /\
      exists enq, macrotaskQueue (tick s) = macrotaskQueue s ++ enq) /\
  (forall evs s,
      fst (history microtaskQueue evs s) ++ microtaskQueue (run evs s) =
      microtaskQueue s ++ snd (history microtaskQueue evs s)) /\
  (forall evs s,
      fst (history macrotaskQueue evs s) ++ macrotaskQueue (run evs s) =
      macrotaskQueue s ++ snd (history macrotaskQueue evs s)).
Proof.
  split; [|split; [|split]].
  - intros now random s. split;
      [apply step_micro_shape | apply step_macro_shape].
  - apply tick_queue_shape.
  - apply history_fifo, apply_micro_move.
  - apply history_fifo, apply_macro_move.
Qed.

End EngineFacts.

Module ParserFacts.
Import Str Parser ParserView.

Lemma bind_ok {A B} (m : M A) (k : A -> M B) c a c' :
  m c = Ok (a, c') -> bind m k c = k a c'.
Proof. unfold bind. now intros ->. Qed.

Lemma liftR_ok {A} (a : A) c : liftR (Ok a) c = Ok (a, c).
Proof. reflexivity. Qed.

Lemma parseBlock_done fuel lines i endLine c :
  (endLine <= i)%nat -> parseBlock fuel lines i endLine c = Ok ([], c).
Proof.
  intros H. destruct fuel; simpl;
    (replace (endLine <=? i)%nat with true by (symmetry; now apply Nat.leb_le));
    reflexivity.
Qed.

Lemma skipn_nth_cons {A} (l : list A) j x :
  nth_error l j = Some x -> skipn j l = x :: skipn (S j) l.
Proof.
  revert j; induction l as [|a l IH]; intros [|j]; simpl; try discriminate.
  - now intros [= ->].
  - intros H. now rewrite (IH j H).
Qed.

(** The scan loop: it returns, inside its range; no line before the one it
    returns brings the balance to 0; and when it stops short of the end of
    the range, the line it returns does. *)
Lemma scanFrom_spec lines :
  forall n j b, (j + n <= List.length lines)%nat ->
  exists r, scanFrom lines n j b = Ok r /\ (j <= r <= j + n)%nat /\
    (forall k, (j <= k < r)%nat ->
       fold_left scanLine (firstn (S k - j) (skipn j lines)) b <> 0) /\
    ((r < j + n)%nat ->
       fold_left scanLine (firstn (S r - j) (skipn j lines)) b = 0).
Proof.
  induction n as [|n IH]; intros j b Hlen; cbn [scanFrom].
  - exists j. split; [reflexivity|]. split; [lia|]. split; intros; lia.
  - unfold getLine.
    destruct (nth_error lines j) as [l|] eqn:El.
    2:{ apply nth_error_None in El. lia. }
    rewrite (skipn_nth_cons _ _ _ El).
    destruct (scanLine b l =? 0) eqn:Eb.
    + exists j. split; [reflexivity|]. split; [lia|]. split; [intros; lia|].
      intros _. replace (S j - j)%nat with 1%nat by lia. cbn [firstn fold_left].
      now apply Z.eqb_eq.
    + destruct (IH (S j) (scanLine b l)) as (r & Hr & Hb & Hno & Hyes); [lia|].
      exists r. rewrite Hr. split; [reflexivity|]. split; [lia|]. split.
      * intros k Hk. destruct (Nat.eq_dec k j) as [->|Hne].
        -- replace (S j - j)%nat with 1%nat by lia. cbn [firstn fold_left].
           now apply Z.eqb_neq.
        -- replace (S k - j)%nat with (S (S k - S j)) by lia. cbn [firstn fold_left].
           apply Hno. lia.
      * intros Hlt. replace (S r - j)%nat with (S (S r - S j)) by lia. cbn [firstn fold_left].
        apply Hyes. lia.
Qed.

Lemma findClose_bounds lines i endLine :
  (i < endLine <= List.length lines)%nat ->
  exists j, findClose lines i endLine = Ok j /\ (S i <= j <= endLine)%nat.
Proof.
  intros H. unfold findClose.
  destruct (scanFrom_spec lines (endLine - S i) (S i) 1) as (r & Hr & Hb & _);
    [lia|].
  exists r. split; [exact Hr | lia].
Qed.

(** The three callback branches: close, parse the body, draw the
    identifier, go on below the closing line. *)
Ltac callback_branch IH lines i endLine c :=
  let j := fresh "j" in let Ej := fresh "Ej" in let Hj := fresh "Hj" in
  let body := fresh "body" in let c1 := fresh "c" in let Eb := fresh "Eb" in
  let rest := fresh "rest" in let c2 := fresh "c" in let Er := fresh "Er" in
  destruct (findClose_bounds lines i endLine) as (j & Ej & Hj); [lia|];
  unfold bind, liftR, genId, ret; rewrite Ej; cbv beta iota;
  destruct (IH (S i) j c) as (body & c1 & Eb); [lia|lia|];
  rewrite Eb; cbv beta iota;
  destruct (IH (S j) endLine (S c1)) as (rest & c2 & Er); [lia|lia|];
  rewrite Er; eauto.

(** [parseBlock] returns whenever its fuel exceeds the length of the
    range. *)
Lemma parseBlock_total lines :
  forall fuel i endLine c,
    (endLine <= List.length lines)%nat -> (endLine - i < fuel)%nat ->
    exists ts c', parseBlock fuel lines i endLine c = Ok (ts, c').
Proof.
  induction fuel as [|fuel IH]; intros i endLine c Hlen Hfuel; [lia|].
  destruct (Nat.leb_spec endLine i) as [Hle|Hlt].
  { rewrite parseBlock_done by exact Hle. eauto. }
  cbn [parseBlock].
  replace (endLine <=? i)%nat with false by (symmetry; apply Nat.leb_gt; lia).
  unfold getLine.
  destruct (nth_error lines i) as [l|] eqn:El.
  2:{ apply nth_error_None in El. lia. }
  rewrite (bind_ok _ _ c l c) by reflexivity.
  assert (forall c0, exists ts c',
             parseBlock fuel lines (S i) endLine c0 = Ok (ts, c'))
    as Hnext by (intros c0; apply IH; lia).
  destruct (String.eqb (trim l) EmptyString || startsWith "//" (trim l));
    [apply Hnext|].
  destruct (logMatch (trim l)) as [msg|].
  { unfold bind, genId, ret.
    destruct (Hnext (S c)) as (ts & c' & E). rewrite E. eauto. }
  destruct (timeoutStart (trim l)); [callback_branch IH lines i endLine c|].
  destruct (immediateStart (trim l)); [callback_branch IH lines i endLine c|].
  destruct (microStart (trim l)); [callback_branch IH lines i endLine c|].
  apply Hnext.
Qed.

Lemma parseCode_range idCounter code :
  parseCode idCounter code =
  parseRange (split_nl code) 0%nat (List.length (split_nl code)) 0%nat.
Proof.
  unfold parseCode, parseRange. now rewrite Nat.sub_0_r.
Qed.

Lemma parseCode_total idCounter code :
  exists ts c', parseCode idCounter code = Ok (ts, c').
Proof.
  unfold parseCode. apply parseBlock_total; lia.
Qed.

Lemma parseRange_enter lines i endLine l c :
  (i < endLine)%nat -> nth_error lines i = Some l ->
  parseRange lines i endLine c =
  (let rawLine := trim l in
   if (String.eqb rawLine EmptyString || startsWith "//" rawLine)%bool
   then parseRange lines (S i) endLine
   else
     match logMatch rawLine with
     | Some msg =>
         tid <- genId ;;
         rest <- parseRange lines (S i) endLine ;;
         ret (mkTask tid LOG msg None None (lineNo i) :: rest)
     | None =>
         if timeoutStart rawLine then
           j <- liftR (findClose lines i endLine) ;;
           let d := match delayMatch (closingLineOf lines j) with
                    | Some n => n
                    | None => 0
                    end in
           body <- parseBlock (endLine - i) lines (S i) j ;;
           tid <- genId ;;
           rest <- parseBlock (endLine - i) lines (S j) endLine ;;
           ret (mkTask tid TIMEOUT "setTimeout" (Some d) (Some body)
                       (lineNo i) :: rest)
         else if immediateStart rawLine then
           j <- liftR (findClose lines i endLine) ;;
           body <- parseBlock (endLine - i) lines (S i) j ;;
           tid <- genId ;;
           rest <- parseBlock (endLine - i) lines (S j) endLine ;;
           ret (mkTask tid TIMEOUT "setImmediate" (Some 0) (Some body)
                       (lineNo i) :: rest)
         else if microStart rawLine then
           j <- liftR (findClose lines i endLine) ;;
           body <- parseBlock (endLine - i) lines (S i) j ;;
           tid <- genId ;;
           rest <- parseBlock (endLine - i) lines (S j) endLine ;;
           ret (mkTask tid PROMISE (microLabel rawLine) None (Some body)
                       (lineNo i) :: rest)
         else parseRange lines (S i) endLine
     end) c.
Proof.
  intros Hlt El. unfold parseRange.
  replace (S (endLine - S i)) with (endLine - i)%nat by lia.
  cbn [parseBlock].
  replace (endLine <=? i)%nat with false by (symmetry; apply Nat.leb_gt; lia).
  unfold getLine. rewrite El.
  rewrite (bind_ok _ _ c l c) by reflexivity.
  reflexivity.
Qed.

Lemma unrecognized_skipped lines i endLine l c :
  (i < endLine <= List.length lines)%nat ->
  nth_error lines i = Some l ->
  unrecognized (trim l) = true ->
  parseRange lines i endLine c = parseRange lines (S i) endLine c.
Proof.
  intros Hr El Hu. rewrite (parseRange_enter lines i endLine l c) by tauto.
  unfold unrecognized in Hu. cbv zeta.
  destruct (String.eqb (trim l) EmptyString || startsWith "//" (trim l));
    [reflexivity|].
  simpl in Hu.
  destruct (logMatch (trim l)); [discriminate|].
  destruct (timeoutStart (trim l)); [discriminate|].
  destruct (immediateStart (trim l)); [discriminate|].
  destruct (microStart (trim l)); [discriminate|].
  reflexivity.
Qed.

Ltac truncated_branch lines i endLine c Hclose :=
  let body := fresh "body" in let c1 := fresh "c" in let Eb := fresh "Eb" in
  destruct (parseBlock_total lines (S (endLine - S i)) (S i) endLine c)
    as (body & c1 & Eb); [lia|lia|];
  exists body, c1; eexists;
  split; [exact Eb|];
  replace (S (endLine - S i)) with (endLine - i)%nat in Eb by lia;
  unfold bind, liftR, genId, ret; rewrite Hclose; cbv beta iota;
  rewrite Eb; cbv beta iota;
  rewrite parseBlock_done by lia;
  split; [reflexivity|]; split; reflexivity.

Lemma unterminated_truncated lines i endLine l c :
  (i < endLine <= List.length lines)%nat ->
  nth_error lines i = Some l ->
  opensCallback (trim l) = true ->
  findClose lines i endLine = Ok endLine ->
  exists body c' t,
    parseRange lines (S i) endLine c = Ok (body, c') /\
    parseRange lines i endLine c = Ok ([t], S c') /\
    children t = Some body /\ line t = Some (Z.of_nat i + 1).
Proof.
  intros Hr El Ho Hclose.
  rewrite (parseRange_enter lines i endLine l c) by tauto.
  unfold opensCallback in Ho. cbv zeta. unfold parseRange at 1.
  destruct (String.eqb (trim l) EmptyString || startsWith "//" (trim l));
    [discriminate|].
  destruct (logMatch (trim l)); [discriminate|].
  simpl in Ho.
  destruct (timeoutStart (trim l));
    [truncated_branch lines i endLine c Hclose|].
  destruct (immediateStart (trim l));
    [truncated_branch lines i endLine c Hclose|].
  destruct (microStart (trim l));
    [truncated_branch lines i endLine c Hclose|].
  discriminate.
Qed.

(** C8. Parsing is total.  For every text and every value of the identifier
    counter, [parseCode] returns a task sequence: it neither raises nor runs
    out of fuel.  A line that is blank, a comment, or matched by none of the
    four patterns contributes nothing: the parse of a range that starts
    with it is the parse of the rest of the range.  And when a line opens a
    callback whose scan reaches the end of the range without closing, the
    range yields that one task, whose body is the parse of all the lines
    left in the range. *)
Theorem parsing_is_total :
  (forall idCounter code, exists ts c', parseCode idCounter code = Ok (ts, c')) /\
  (forall idCounter code,
      parseCode idCounter code =
      parseRange (split_nl code) 0%nat (List.length (split_nl code)) 0%nat) /\
  (forall lines i endLine l c,
      (i < endLine <= List.length lines)%nat ->
      nth_error lines i = Some l ->
      unrecognized (trim l) = true ->
      parseRange lines i endLine c = parseRange lines (S i) endLine c) /\
  (forall lines i endLine l c,
      (i < endLine <= List.length lines)%nat ->
      nth_error lines i = Some l ->
      opensCallback (trim l) = true ->
      findClose lines i endLine = Ok endLine ->
      exists body c' t,
        parseRange lines (S i) endLine c = Ok (body, c') /\
        parseRange lines i endLine c = Ok ([t], S c') /\
        children t = Some body /\ line t = Some (Z.of_nat i + 1)).
Proof.
  split; [exact parseCode_total|].
  split; [exact parseCode_range|].
  split; [exact unrecognized_skipped | exact unterminated_truncated].
Qed.

(** An instance: an unsupported statement, then a timer that is never
    closed. *)
Lemma parsing_is_total_witness :
  let lines := ["let x = 1;"; "setTimeout(() => {"; "  console.log('late');"] in
  ((0 < 3 <= List.length lines)%nat /\
   nth_error lines 0%nat = Some "let x = 1;" /\
   unrecognized (trim "let x = 1;") = true /\
   parseRange lines 0%nat 3%nat 0%nat = parseRange lines 1%nat 3%nat 0%nat) /\
  ((1 < 3 <= List.length lines)%nat /\
   nth_error lines 1%nat = Some "setTimeout(() => {" /\
   opensCallback (trim "setTimeout(() => {") = true /\
   findClose lines 1%nat 3%nat = Ok 3%nat /\
   exists body c' t,
     parseRange lines 2%nat 3%nat 0%nat = Ok (body, c') /\
     parseRange lines 1%nat 3%nat 0%nat = Ok ([t], S c') /\
     children t = Some body /\ line t = Some (Z.of_nat 1%nat + 1)).
Proof.
  intros lines.
  destruct parsing_is_total as (_ & _ & Hskip & Htrunc).
  assert ((0 < 3 <= List.length lines)%nat) as R0 by (simpl; lia).
  assert ((1 < 3 <= List.length lines)%nat) as R1 by (simpl; lia).
  split.
  - split; [exact R0|]. split; [reflexivity|]. split; [reflexivity|].
    exact (Hskip lines 0%nat 3%nat "let x = 1;" 0%nat R0 eq_refl eq_refl).
  - split; [exact R1|]. do 3 (split; [reflexivity|]).
    exact (Htrunc lines 1%nat 3%nat "setTimeout(() => {" 0%nat R1
             eq_refl eq_refl eq_refl).
Defined.

(** C4. Two invocations of the parser on the same text return the same
    result whatever the identifier counter held when each began, because
    each begins by resetting it: both return, the two trees are equal, a
    fortiori once their identifiers are blanked; in particular a second
    invocation that starts from the counter the first one left returns the
    tree of the first. *)
Theorem parse_twice_same_tree (c1 c2 : nat) (code : string) :
  exists t1 t2 n1 n2,
    parseCode c1 code = Ok (t1, n1) /\ parseCode c2 code = Ok (t2, n2) /\
    t1 = t2 /\ map eraseId t1 = map eraseId t2 /\
    parseCode n1 code = Ok (t1, n1).
Proof.
  destruct (parseCode_total c1 code) as (ts & n & E).
  exists ts, ts, n, n. repeat split; exact E.
Qed.

Lemma scanLine_by_line b l :
  scanLine b l =
  b + (if includes "{" l then 1 else 0) - (if includes "}" l then 1 else 0).
Proof.
  unfold scanLine. destruct (includes "{" l), (includes "}" l); lia.
Qed.

(** C6, as the parser has it.  The scan below a callback-opening line
    starts from a balance of 1 and, for each line, raises it by one when the
    line contains an open brace and lowers it by one when the line contains
    a close brace, however many of either the line holds.  Within a range
    that lies in the text the scan returns a line of that range or its end;
    no line before the one returned brings the balance to 0, and when the
    scan stops before the end of the range the line returned does. *)
Theorem closing_line_scan :
  (forall b l,
      scanLine b l =
      b + (if includes "{" l then 1 else 0)
        - (if includes "}" l then 1 else 0)) /\
  (forall lines i endLine,
      (i < endLine <= List.length lines)%nat ->
      exists j, findClose lines i endLine = Ok j /\
        (S i <= j <= endLine)%nat /\
        (forall k, (i < k < j)%nat -> balanceAfter lines i k <> 0) /\
        ((j < endLine)%nat -> balanceAfter lines i j = 0)).
Proof.
  split; [exact scanLine_by_line|].
  intros lines i endLine Hr. unfold findClose, balanceAfter.
  destruct (scanFrom_spec lines (endLine - S i) (S i) 1)
    as (r & Hres & Hb & Hno & Hyes); [lia|].
  exists r. split; [exact Hres|]. split; [lia|]. split.
  - intros k Hk. apply (Hno k). lia.
  - intros Hlt. apply Hyes. lia.
Qed.

(** An instance: a body that holds a nested block. *)
Lemma closing_line_scan_witness :
  let lines := ["setTimeout(() => {"; "  if (x) {"; "  }"; "}, 100);"; "done();"] in
  (0 < 5 <= List.length lines)%nat /\
  exists j, findClose lines 0%nat 5%nat = Ok j /\
    (1 <= j <= 5)%nat /\
    (forall k, (0 < k < j)%nat -> balanceAfter lines 0%nat k <> 0) /\
    ((j < 5)%nat -> balanceAfter lines 0%nat j = 0).
Proof.
  intros lines.
  assert ((0 < 5 <= List.length lines)%nat) as R by (simpl; lia).
  split; [exact R|].
  exact (proj2 closing_line_scan lines 0%nat 5%nat R).
Defined.

(** C6, as the specification words it, fails: a line holding two close
    braces lowers the parser's balance by one, not by two, so the scan can
    run past the line at which a count of brace characters reaches 0. *)
Lemma brace_occurrence_count_counterexample :
  let closing := "  }); }, 0);" in
  let lines := ["setTimeout(() => {"; "  queueMicrotask(() => {";
                "    console.log('a');"; closing; "console.log('b');"] in
  occurrences "}" closing = 2 /\
  scanLine 2 closing = 1 /\ specScanLine 2 closing = 0 /\
  scanLine 2 closing <> 2 - occurrences "}" closing /\
  findClose lines 0%nat 5%nat = Ok 5%nat /\ specFindClose lines 0%nat 5%nat = 3%nat.
Proof.
  intros closing lines.
  do 3 (split; [reflexivity|]).
  split; [discriminate|].
  split; reflexivity.
Qed.

End ParserFacts.

Module ScenarioFacts.
Import Str Parser Engine Observe Scenario EngineFacts.

(** *** Soundness of the boolean equalities *)

Lemma option_eqb_sound {A} (eqb : A -> A -> bool) :
  (forall a b, eqb a b = true -> a = b) ->
  forall x y, option_eqb eqb x y = true -> x = y.
Proof.
  intros H [a|] [b|]; simpl; try discriminate; [|reflexivity].
  intros E. now rewrite (H a b E).
Qed.

Lemma list_eqb_sound {A} (eqb : A -> A -> bool) :
  (forall a b, eqb a b = true -> a = b) ->
  forall x y, list_eqb eqb x y = true -> x = y.
Proof.
  intros H. induction x as [|a x IH]; intros [|b y]; simpl;
    try discriminate; [reflexivity|].
  intros E. apply andb_prop in E as [E1 E2].
  now rewrite (H a b E1), (IH y E2).
Qed.

Lemma Zeqb_sound a b : (a =? b) = true -> a = b.
Proof. apply Z.eqb_eq. Qed.

Lemma String_eqb_sound a b : String.eqb a b = true -> a = b.
Proof. apply String.eqb_eq. Qed.

Lemma TaskType_eqb_sound a b : TaskType_eqb a b = true -> a = b.
Proof. destruct a, b; simpl; congruence. Qed.

Lemma Task_eqb_sound : forall a b, Task_eqb a b = true -> a = b.
Proof.
  induction a as [i ty c d ch l IH] using Task_nested_ind.
  intros [i2 ty2 c2 d2 ch2 l2]. cbn [Task_eqb]. intros E.
  repeat (apply andb_prop in E as [E ?]).
  apply String_eqb_sound in E. subst i2.
  repeat match goal with
         | H : TaskType_eqb _ _ = true |- _ => apply TaskType_eqb_sound in H
         | H : String.eqb _ _ = true |- _ => apply String_eqb_sound in H
         | H : option_eqb Z.eqb _ _ = true |- _ =>
             apply (option_eqb_sound _ Zeqb_sound) in H
         end.
  subst. f_equal.
  destruct ch as [x|], ch2 as [y|]; try discriminate; [|reflexivity].
  f_equal. revert y H0. induction IH as [|p x Hp _ IHx]; intros [|q y];
    try discriminate; [reflexivity|].
  intros E. apply andb_prop in E as [E1 E2].
  now rewrite (Hp q E1), (IHx y E2).
Qed.

Lemma WebApiTask_eqb_sound a b : WebApiTask_eqb a b = true -> a = b.
Proof.
  destruct a, b. unfold WebApiTask_eqb. simpl. intros E.
  repeat (apply andb_prop in E as [E ?]).
  apply Task_eqb_sound in E.
  repeat match goal with H : (_ =? _) = true |- _ => apply Z.eqb_eq in H end.
  now subst.
Qed.

Lemma Frame_eqb_sound a b : Frame_eqb a b = true -> a = b.
Proof.
  destruct a, b. unfold Frame_eqb. simpl. intros E.
  repeat (apply andb_prop in E as [E ?]).
  apply String_eqb_sound in E.
  repeat match goal with
         | H : TaskType_eqb _ _ = true |- _ => apply TaskType_eqb_sound in H
         | H : String.eqb _ _ = true |- _ => apply String_eqb_sound in H
         | H : Nat.eqb _ _ = true |- _ => apply Nat.eqb_eq in H
         | H : option_eqb Z.eqb _ _ = true |- _ =>
             apply (option_eqb_sound _ Zeqb_sound) in H
         | H : option_eqb (list_eqb Task_eqb) _ _ = true |- _ =>
             apply (option_eqb_sound _ (list_eqb_sound _ Task_eqb_sound)) in H
         end.
  now subst.
Qed.

Lemma EngineState_eqb_sound a b : EngineState_eqb a b = true -> a = b.
Proof.
  destruct a, b. unfold EngineState_eqb. simpl. intros E.
  repeat (apply andb_prop in E as [E ?]).
  apply String_eqb_sound in E.
  repeat match goal with
         | H : Bool.eqb _ _ = true |- _ => apply Bool.eqb_prop in H
         | H : (_ =? _) = true |- _ => apply Z.eqb_eq in H
         | H : option_eqb Z.eqb _ _ = true |- _ =>
             apply (option_eqb_sound _ Zeqb_sound) in H
         | H : list_eqb Task_eqb _ _ = true |- _ =>
             apply (list_eqb_sound _ Task_eqb_sound) in H
         | H : list_eqb Frame_eqb _ _ = true |- _ =>
             apply (list_eqb_sound _ Frame_eqb_sound) in H
         | H : list_eqb WebApiTask_eqb _ _ = true |- _ =>
             apply (list_eqb_sound _ WebApiTask_eqb_sound) in H
         | H : list_eqb String.eqb _ _ = true |- _ =>
             apply (list_eqb_sound _ String_eqb_sound) in H
         end.
  now subst.
Qed.

Lemma member_In x l : member x l = true -> In x l.
Proof.
  unfold member. intros H. apply existsb_exists in H as (y & Hy & E).
  apply EngineState_eqb_sound in E. now subst.
Qed.

(** *** A run does not depend on the clock or on the random draws *)

Lemma unsnoc_map {A B} (f : A -> B) (l : list A) :
  unsnoc (map f l) =
  match unsnoc l with
  | Some (i, t) => Some (map f i, f t)
  | None => None
  end.
Proof.
  induction l as [|a l IH]; simpl; [reflexivity|].
  rewrite IH. now destruct (unsnoc l) as [[i t]|].
Qed.

Lemma map_eraseFrame_idem l :
  map eraseFrame (map eraseFrame l) = map eraseFrame l.
Proof. rewrite map_map. now apply map_ext. Qed.

Lemma map_eraseApi_idem l : map eraseApi (map eraseApi l) = map eraseApi l.
Proof. rewrite map_map. now apply map_ext. Qed.

Lemma map_eraseTask_idem l : map eraseTask (map eraseTask l) = map eraseTask l.
Proof. rewrite map_map. now apply map_ext. Qed.

Lemma erase_step now random now' random' s :
  erase (step now random s) = erase (step now' random' (erase s)).
Proof.
  unfold step. cbn [erase callStack microtaskQueue macrotaskQueue webApis
                    code parsedTasks consoleOutput isRunning speed isFinished
                    activeLine].
  rewrite unsnoc_map.
  destruct (unsnoc (callStack s)) as [[below frame]|] eqn:Est.
  - change (currentTask (eraseFrame frame)) with (currentTask frame).
    destruct (currentTask frame) as [task|]; unfold erase; simpl.
    + destruct (type task), (children task); simpl;
        rewrite ?map_app, ?map_eraseFrame_idem, ?map_eraseApi_idem,
          ?map_eraseTask_idem; reflexivity.
    + now rewrite map_eraseFrame_idem, map_eraseApi_idem, map_eraseTask_idem.
  - apply unsnoc_None in Est.
    destruct (microtaskQueue s) as [|m q]; simpl.
    + destruct (macrotaskQueue s) as [|t q']; unfold erase; simpl.
      * rewrite Est. destruct (webApis s); simpl;
          rewrite ?map_eraseApi_idem; reflexivity.
      * rewrite Est. simpl. now rewrite map_eraseApi_idem.
    + unfold erase; simpl. rewrite Est. simpl.
      now rewrite map_eraseApi_idem, map_eraseTask_idem.
Qed.

Lemma filter_map_eraseApi (p : Z -> bool) l :
  filter (fun a => p (remainingTime a)) (map eraseApi l) =
  map eraseApi (filter (fun a => p (remainingTime a)) l).
Proof.
  induction l as [|a l IH]; simpl; [reflexivity|].
  destruct (p (remainingTime a)); simpl; now rewrite IH.
Qed.

Lemma erase_tick s : erase (tick s) = erase (tick (erase s)).
Proof.
  rewrite !tick_closed_form. unfold erase; simpl.
  rewrite (filter_map_eraseApi (fun r => negb (r <=? 0))),
          (filter_map_eraseApi (fun r => r <=? 0)).
  rewrite map_eraseFrame_idem, map_eraseTask_idem, !map_map.
  reflexivity.
Qed.

Lemma erase_apply s e : erase (apply s e) = erase (apply (erase s) (canon e)).
Proof.
  destruct e as [now random|]; simpl; [apply erase_step | apply erase_tick].
Qed.

Lemma run_snoc evs e s : run (evs ++ [e]) s = apply (run evs s) e.
Proof. unfold run. now rewrite fold_left_app. Qed.

(** A closed set holding the erased start state holds the erased image of
    every state a run reaches. *)
Lemma closed_invariant (R : list EngineState) (s0 : EngineState) :
  closed R = true -> member (erase s0) R = true ->
  forall evs, In (erase (run evs s0)) R.
Proof.
  intros Hc H0 evs. induction evs as [|e evs IH] using rev_ind.
  - now apply member_In.
  - rewrite run_snoc, erase_apply.
    unfold closed in Hc. rewrite forallb_forall in Hc.
    specialize (Hc _ IH). apply andb_prop in Hc as [Hs Ht].
    destruct e as [now random|]; simpl; now apply member_In.
Qed.

Lemma scenarioB_checked t m c autoPlay prev s0 :
  resetEngine c (scenarioB t m) autoPlay prev = Ok s0 ->
  closed (reachSet t m) = true /\
  member (erase s0) (reachSet t m) = true /\
  finishedShow ["A"; "D"; "C"; "B"] (reachSet t m) = true.
Proof.
  intros H.
  destruct t, m; vm_compute in H; injection H as <-;
    vm_compute; repeat split.
Qed.

Lemma finishedShow_In out R x :
  finishedShow out R = true -> In (erase x) R -> isFinished x = true ->
  consoleOutput x = out.
Proof.
  unfold finishedShow. intros Hshow Hin Hf.
  rewrite forallb_forall in Hshow. specialize (Hshow _ Hin).
  cbn [erase isFinished consoleOutput] in Hshow.
  rewrite Hf in Hshow. cbn [implb] in Hshow.
  now apply (list_eqb_sound _ String_eqb_sound).
Qed.

(** C1. Scenario B: log [A], a zero-delay timer logging [B], a microtask
    logging [C], log [D].  Whatever the spelling of the timer and of the
    microtask registration, however the session was reset, whatever the
    clock and the random draws, and however steps and timer ticks
    interleave, a run from the state installed for that text that ends in a
    finished state has logged exactly [A], [D], [C], [B]. *)
Theorem scenarioB_output (t : TimerSpelling) (m : MicroSpelling)
  (idCounter : nat) (autoPlay : bool) (prev s0 : EngineState)
  (evs : list Event)
  (Hreset : resetEngine idCounter (scenarioB t m) autoPlay prev = Ok s0)
  (Hfinished : isFinished (run evs s0) = true) :
  consoleOutput (run evs s0) = ["A"; "D"; "C"; "B"].
Proof.
  destruct (scenarioB_checked t m idCounter autoPlay prev s0 Hreset)
    as (Hc & H0 & Hshow).
  apply (finishedShow_In _ (reachSet t m)); [exact Hshow| |exact Hfinished].
  now apply closed_invariant.
Qed.

(** One such run: two ticks that come early, and twelve steps. *)
Lemma scenarioB_output_witness :
  let s0 := startOf (scenarioB TimeoutZero QueueMicrotask) in
  let st := EvStep 1700000000000 "0.5" in
  let evs := [EvTick; st; st; EvTick; st; st; st; st; st; st; st; st; st; st] in
  resetEngine 0 (scenarioB TimeoutZero QueueMicrotask) false initialState = Ok s0 /\
  isFinished (run evs s0) = true /\
  consoleOutput (run evs s0) = ["A"; "D"; "C"; "B"].
Proof.
  intros s0 st evs.
  assert (resetEngine 0 (scenarioB TimeoutZero QueueMicrotask) false
            initialState = Ok s0) as Hr by reflexivity.
  assert (isFinished (run evs s0) = true) as Hf by reflexivity.
  split; [exact Hr|]. split; [exact Hf|].
  exact (scenarioB_output TimeoutZero QueueMicrotask 0%nat false initialState
           s0 evs Hr Hf).
Defined.

End ScenarioFacts.

Module SessionFacts.
Import Str Parser Engine Observe Handlers Shape Scenario EngineFacts ScenarioFacts.

Lemma reachable_run evs s : reachable s -> reachable (run evs s).
Proof.
  revert s. induction evs as [|e evs IH]; intros s Hs; [exact Hs|].
  change (run (e :: evs) s) with (run evs (apply s e)).
  apply IH. now apply reach_event.
Qed.

Lemma reachable_startOf text :
  (exists s, resetEngine 0 text false initialState = Ok s) ->
  reachable (startOf text).
Proof.
  intros [s Hs]. unfold startOf. rewrite Hs.
  exact (reach_reset 0%nat text false initialState s Hs).
Qed.

(** *** The shape of the call stack *)

Lemma step_stackOk now random s : stackOk s -> stackOk (step now random s).
Proof.
  unfold stackOk, step. intros [Hlen Hall].
  destruct (unsnoc (callStack s)) as [[below frame]|] eqn:Est.
  - apply unsnoc_Some in Est. rewrite Est in Hlen, Hall.
    rewrite length_app in Hlen. simpl in Hlen.
    destruct below; [|simpl in Hlen; lia].
    apply Forall_app in Hall as [_ Hf]. inversion Hf as [|? ? Hfr _]; subst.
    unfold currentTask.
    destruct Hfr as (body & Hb & Hc). rewrite Hb.
    destruct (nth_error body (currentLineIndex frame)) as [task|] eqn:En.
    + simpl. split; [lia|]. constructor; [|constructor].
      exists body. simpl. split; [exact Hb|].
      assert (currentLineIndex frame < List.length body)%nat
        by (apply nth_error_Some; congruence).
      lia.
    + simpl. split; [lia|constructor].
  - apply unsnoc_None in Est.
    destruct (microtaskQueue s) as [|m q].
    + destruct (macrotaskQueue s) as [|t q']; simpl.
      * rewrite Est. simpl. split; [lia|constructor].
      * rewrite Est. simpl. split; [lia|].
        constructor; [|constructor]. eexists. simpl. split; [reflexivity|lia].
    + simpl. rewrite Est. simpl. split; [lia|].
      constructor; [|constructor]. eexists. simpl. split; [reflexivity|lia].
Qed.

Lemma tick_stackOk s : stackOk s -> stackOk (tick s).
Proof. rewrite tick_closed_form. exact (fun H => H). Qed.

Lemma reachable_stackOk s : reachable s -> stackOk s.
Proof.
  induction 1 as [c newCode autoPlay prev s Hr | s e _ IH].
  - unfold resetEngine in Hr.
    destruct (parseCode c newCode) as [[tasks c']| |]; try discriminate.
    injection Hr as <-. split; simpl; [lia|].
    constructor; [|constructor]. exists tasks. simpl. split; [reflexivity|lia].
  - destruct e; simpl; [now apply step_stackOk | now apply tick_stackOk].
Qed.

(** X1. In every state of a session the call stack holds at most one
    frame, and that frame has a body with its cursor inside it or just past
    its end: a registration never pushes a frame, and a callback is entered
    only on an empty stack. *)
Theorem session_stack_shape (s : EngineState) (Hs : reachable s) :
  (List.length (callStack s) <= 1)%nat /\
  Forall (fun f => exists body, linesOfCode f = Some body /\
                     (currentLineIndex f <= List.length body)%nat)
         (callStack s).
Proof. exact (reachable_stackOk s Hs). Qed.

(** An instance: the sample [A; timer; microtask; D] after six steps and a
    tick. *)
Lemma session_stack_shape_witness :
  let st := EvStep 10 "0.5" in
  let s := run [st; st; EvTick; st; st; st; st]
               (startOf (scenarioB TimeoutZero PromiseThen)) in
  reachable s /\
  (List.length (callStack s) <= 1)%nat /\
  Forall (fun f => exists body, linesOfCode f = Some body /\
                     (currentLineIndex f <= List.length body)%nat)
         (callStack s).
Proof.
  intros st s.
  assert (reachable s) as Hs.
  { apply reachable_run, reachable_startOf. eexists. reflexivity. }
  split; [exact Hs|]. exact (session_stack_shape s Hs).
Defined.

(** *** The output log only grows *)

Lemma step_output now random s :
  exists l, consoleOutput (step now random s) = consoleOutput s ++ l /\
            (List.length l <= 1)%nat.
Proof.
  unfold step.
  destruct (unsnoc (callStack s)) as [[below frame]|].
  - destruct (currentTask frame) as [task|]; simpl.
    + destruct (type task);
        try (exists nil; rewrite app_nil_r; simpl; split; [reflexivity|lia]).
      exists (content task :: nil). simpl. split; [reflexivity|lia].
    + exists nil. rewrite app_nil_r. simpl. split; [reflexivity|lia].
  - destruct (microtaskQueue s); [destruct (macrotaskQueue s)|]; simpl;
      exists nil; rewrite app_nil_r; simpl; (split; [reflexivity|lia]).
Qed.

Lemma tick_output s : consoleOutput (tick s) = consoleOutput s.
Proof. now rewrite tick_closed_form. Qed.

(** X2. The output log is append-only.  A step adds at most one line at its
    end and a tick adds none; so after any run the log is the log at the
    start followed by at most as many lines as the run has steps. *)
Theorem output_is_append_only :
  (forall now random s,
      exists l, consoleOutput (step now random s) = consoleOutput s ++ l /\
                (List.length l <= 1)%nat) /\
  (forall s, consoleOutput (tick s) = consoleOutput s) /\
  (forall evs s,
      exists l, consoleOutput (run evs s) = consoleOutput s ++ l /\
                (List.length l <= stepCount evs)%nat).
Proof.
  split; [exact step_output|]. split; [exact tick_output|].
  induction evs as [|e evs IH]; intros s.
  - exists nil. rewrite app_nil_r. simpl. split; [reflexivity|lia].
  - change (run (e :: evs) s) with (run evs (apply s e)).
    destruct (IH (apply s e)) as (l & El & Hl). rewrite El.
    destruct e as [now random|]; simpl apply.
    + destruct (step_output now random s) as (l0 & E0 & H0). rewrite E0.
      exists (l0 ++ l). rewrite app_assoc. split; [reflexivity|].
      rewrite length_app. unfold stepCount in *. simpl. lia.
    + rewrite tick_output. exists l. split; [reflexivity|exact Hl].
Qed.

(** *** Where a session rests *)

Lemma tick_no_pending s : webApis s = [] -> tick s = s.
Proof. unfold tick. now intros ->. Qed.

(** X3. A finished state is final for the whole engine: in a session, once
    the finished flag is set, auto-run is off, no line is highlighted, and
    no sequence of steps and ticks changes the state. *)
Theorem finished_is_absorbing (s : EngineState) (Hs : reachable s)
  (Hf : isFinished s = true) (evs : list Event) :
  run evs s = s /\ isRunning s = false /\ activeLine s = None.
Proof.
  pose proof (reachable_settled s Hs) as Hset.
  destruct (Hset Hf) as ((_ & Hw & _) & Ha & Hr).
  split; [|auto].
  induction evs as [|e evs IH]; [reflexivity|].
  change (run (e :: evs) s) with (run evs (apply s e)).
  assert (apply s e = s) as ->; [|exact IH].
  destruct e as [now random|]; simpl.
  - now apply step_finished_fixed.
  - now apply tick_no_pending.
Qed.

(** An instance: the one-line program, finished after three steps, then
    driven further. *)
Lemma finished_is_absorbing_witness :
  let st := EvStep 10 "0.5" in
  let s := run [st; st; st] (startOf "console.log('A');") in
  reachable s /\ isFinished s = true /\
  run [EvTick; st; EvTick; st] s = s.
Proof.
  intros st s.
  assert (reachable s) as Hs.
  { apply reachable_run, reachable_startOf. eexists. reflexivity. }
  assert (isFinished s = true) as Hf by reflexivity.
  split; [exact Hs|]. split; [exact Hf|].
  exact (proj1 (finished_is_absorbing s Hs Hf [EvTick; st; EvTick; st])).
Defined.

Lemma snoc_neq {A} (l : list A) (x : A) : l <> l ++ [x].
Proof.
  intros H. apply (f_equal (@List.length A)) in H.
  rewrite length_app in H. simpl in H. lia.
Qed.

Lemma step_moves now random s :
  step now random s = s ->
  callStack s = [] /\ microtaskQueue s = [] /\ macrotaskQueue s = [].
Proof.
  intros H.
  pose proof (f_equal callStack H) as Hst.
  pose proof (f_equal microtaskQueue H) as Hmi.
  pose proof (f_equal macrotaskQueue H) as Hma.
  unfold step in Hst, Hmi, Hma.
  destruct (unsnoc (callStack s)) as [[below frame]|] eqn:Est.
  - exfalso. apply unsnoc_Some in Est.
    destruct (currentTask frame) as [task|]; simpl in Hst; rewrite Est in Hst.
    + apply app_inv_head in Hst. injection Hst as Hfr.
      apply (f_equal currentLineIndex) in Hfr. simpl in Hfr. lia.
    + now apply snoc_neq in Hst.
  - apply unsnoc_None in Est. split; [exact Est|].
    destruct (microtaskQueue s) as [|m q].
    + split; [reflexivity|].
      destruct (macrotaskQueue s) as [|t q']; [reflexivity|].
      simpl in Hma. exfalso.
      apply (f_equal (@List.length Task)) in Hma. simpl in Hma. lia.
    + simpl in Hmi. exfalso.
      apply (f_equal (@List.length Task)) in Hmi. simpl in Hmi. lia.
Qed.

(** X4. In a session, a step leaves the state exactly as it was if and only
    if the call stack and both queues are empty and either a timer is still
    pending (the engine idles until a tick promotes it) or the finished flag
    is already set.  In every other state a step makes progress. *)
Theorem step_is_idle_iff (s : EngineState) (Hs : reachable s) now random :
  step now random s = s <->
  callStack s = [] /\ microtaskQueue s = [] /\ macrotaskQueue s = [] /\
  (webApis s <> [] \/ isFinished s = true).
Proof.
  pose proof (reachable_settled s Hs) as Hset.
  split.
  - intros H. destruct (step_moves _ _ _ H) as (Hst & Hmi & Hma).
    repeat (split; [assumption|]).
    destruct (webApis s) as [|a l] eqn:Ew; [right|left; discriminate].
    apply (f_equal isFinished) in H. unfold step in H.
    rewrite Hst, Hmi, Hma in H. simpl in H. rewrite Ew in H. now symmetry.
  - intros (Hst & Hmi & Hma & [Hw|Hf]).
    + unfold step. rewrite Hst, Hmi, Hma. simpl.
      destruct (webApis s) as [|a l] eqn:Ew; [congruence|].
      assert (isFinished s = false) as Hnf.
      { destruct (isFinished s) eqn:F; [|reflexivity].
        destruct (Hset F) as ((_ & Hw' & _) & _). congruence. }
      destruct s; simpl in *; subst; reflexivity.
    + now apply step_finished_fixed.
Qed.

(** An instance: a timer of 250 ms registered, the main frame popped; the
    engine idles. *)
Lemma step_is_idle_iff_witness :
  let st := EvStep 10 "0.5" in
  let text := join_nl ["setTimeout(() => {"; "  console.log('late');"; "}, 250);"] in
  let s := run [st; st] (startOf text) in
  reachable s /\ step 11 "0.7" s = s /\ webApis s <> [].
Proof.
  intros st text s.
  assert (reachable s) as Hs
    by (apply reachable_run, reachable_startOf; eexists; reflexivity).
  split; [exact Hs|]. split.
  - apply (proj2 (step_is_idle_iff s Hs 11 "0.7")).
    repeat (split; [reflexivity|]). left. discriminate.
  - discriminate.
Defined.

(** *** What a run does not depend on *)




Lemma step_speed now random v s :
  step now random (handleSpeedChange v s) =
  handleSpeedChange v (step now random s).
Proof.
  unfold step, handleSpeedChange. simpl.
  destruct (unsnoc (callStack s)) as [[below frame]|].
  - destruct (currentTask frame); reflexivity.
  - destruct (microtaskQueue s); [destruct (macrotaskQueue s)|]; reflexivity.
Qed.

Lemma tick_speed v s :
  tick (handleSpeedChange v s) = handleSpeedChange v (tick s).
Proof. rewrite !tick_closed_form. reflexivity. Qed.

Lemma step_running now random r r' s :
  withRunning r (step now random (withRunning r' s)) =
  withRunning r (step now random s).
Proof.
  unfold step, withRunning. simpl.
  destruct (unsnoc (callStack s)) as [[below frame]|].
  - destruct (currentTask frame); reflexivity.
  - destruct (microtaskQueue s); [destruct (macrotaskQueue s)|]; reflexivity.
Qed.

Lemma tick_running r r' s :
  withRunning r (tick (withRunning r' s)) = withRunning r (tick s).
Proof. rewrite !tick_closed_form. reflexivity. Qed.

Lemma run_running evs r s s' :
  withRunning r s = withRunning r s' ->
  withRunning r (run evs s) = withRunning r (run evs s').
Proof.
  revert s s'. induction evs as [|e evs IH]; intros s s' H; [exact H|].
  change (withRunning r (run evs (apply s e)) =
          withRunning r (run evs (apply s' e))).
  apply IH. destruct e as [now random|]; simpl.
  - rewrite <- (step_running now random r r s),
            <- (step_running now random r r s'). now rewrite H.
  - rewrite <- (tick_running r r s), <- (tick_running r r s'). now rewrite H.
Qed.

(** X6. The speed slider and the pause button do not disturb the
    simulation.  Changing the speed before a run gives the state the run
    would have reached, with the new speed; pausing or resuming before a run
    changes nothing of the state it reaches but the auto-run flag. *)
Theorem handlers_do_not_disturb_runs (evs : list Event) (s : EngineState) :
  (forall v, run evs (handleSpeedChange v s) = handleSpeedChange v (run evs s)) /\
  (forall r, withRunning r (run evs (toggleRunning s)) =
             withRunning r (run evs s)).
Proof.
  split.
  - intros v. revert s. induction evs as [|e evs IH]; intros s; [reflexivity|].
    change (run evs (apply (handleSpeedChange v s) e) =
            handleSpeedChange v (run evs (apply s e))).
    rewrite <- IH. f_equal.
    destruct e as [now random|]; simpl; [apply step_speed | apply tick_speed].
  - intros r. apply run_running. reflexivity.
Qed.

End SessionFacts.

Module TreeFacts.
Import Str Parser ParserView Engine Handlers Shape ParserFacts.

(** *** What the matchers return *)

Lemma expect_app p s r : expect p s = Some r -> s = (p ++ r)%string.
Proof.
  revert s; induction p as [|a p IH]; intros s; simpl.
  - now intros [= ->].
  - destruct s as [|b s]; [discriminate|].
    destruct (Ascii.eqb a b) eqn:E; [|discriminate].
    apply Ascii.eqb_eq in E. subst b. intros H. now rewrite (IH s H).
Qed.

Lemma startsWith_app p s :
  startsWith p s = true -> exists r, s = (p ++ r)%string.
Proof.
  unfold startsWith. revert s; induction p as [|a p IH]; intros [|b s]; simpl;
    try discriminate.
  - intros _. now exists EmptyString.
  - intros _. now exists (String b s).
  - destruct (ascii_dec a b) as [->|]; [|discriminate].
    intros H. destruct (IH s H) as (r & ->). now exists r.
Qed.

Lemma firstMatch_suffix {A} (f : string -> option A) s a :
  firstMatch f s = Some a ->
  exists pre s', s = (pre ++ s')%string /\ f s' = Some a.
Proof.
  induction s as [|c s IH]; simpl.
  - destruct (f EmptyString) eqn:E; [|discriminate].
    intros [= ->]. now exists EmptyString, EmptyString.
  - destruct (f (String c s)) eqn:E.
    + intros [= ->]. now exists EmptyString, (String c s).
    + intros H. destruct (IH H) as (pre & s' & -> & Hs').
      now exists (String c pre), s'.
Qed.

Lemma oneLine_app a b : oneLine (a ++ b) = oneLine a && oneLine b.
Proof.
  induction a as [|c a IH]; simpl; [reflexivity|].
  now rewrite IH, andb_assoc.
Qed.

Lemma append_assoc (a b c : string) :
  ((a ++ b) ++ c = a ++ (b ++ c))%string.
Proof. induction a as [|x a IH]; simpl; [reflexivity|]. now rewrite IH. Qed.

Lemma append_nil_r (m : string) : (m ++ EmptyString)%string = m.
Proof. induction m as [|c m IH]; simpl; [reflexivity|]. now rewrite IH. Qed.

Lemma lazyMore_eq q r acc :
  lazyMore q r acc =
  if startsWith (String q ")") r then Some acc
  else match r with
       | EmptyString => None
       | String c r' =>
           if isLineTerminator c then None
           else lazyMore q r' (acc ++ str c)%string
       end.
Proof. destruct r; reflexivity. Qed.

Lemma lazyMore_spec q r acc m :
  lazyMore q r acc = Some m ->
  exists x rest, m = (acc ++ x)%string /\ oneLine x = true /\
                 r = (x ++ String q ")" ++ rest)%string.
Proof.
  revert acc; induction r as [|c r IH]; intros acc; rewrite lazyMore_eq.
  - destruct (startsWith (String q ")") EmptyString) eqn:Ep; [|discriminate].
    apply startsWith_app in Ep as (rest & Er). discriminate.
  - destruct (startsWith (String q ")") (String c r)) eqn:Ep.
    + intros [= ->]. apply startsWith_app in Ep as (rest & Er).
      exists EmptyString, rest. split; [|split]; [|reflexivity|exact Er].
      now rewrite append_nil_r.
    + destruct (isLineTerminator c) eqn:El; [discriminate|].
      intros H. destruct (IH _ H) as (x & rest & -> & Hx & ->).
      exists (String c x), rest. split; [|split].
      * now rewrite append_assoc.
      * simpl. now rewrite El.
      * reflexivity.
Qed.

Lemma logMatch_spec rawLine m :
  logMatch rawLine = Some m ->
  m <> EmptyString /\ oneLine m = true /\
  exists q pre post,
    isQuote q = true /\
    rawLine = (pre ++ "console.log(" ++ String q m ++ String q ")" ++ post)%string.
Proof.
  unfold logMatch. intros H.
  apply firstMatch_suffix in H as (pre & s' & -> & H).
  unfold logAt in H.
  destruct (expect "console.log(" s') as [[|q r]|] eqn:Ee; try discriminate.
  destruct (isQuote q) eqn:Eq; [|discriminate].
  apply expect_app in Ee. subst s'.
  unfold lazyBody in H. destruct r as [|c r]; [discriminate|].
  destruct (isLineTerminator c) eqn:El; [discriminate|].
  apply lazyMore_spec in H as (x & rest & -> & Hx & ->).
  split; [discriminate|]. split; [simpl; now rewrite El|].
  exists q, pre, rest. split; [exact Eq|]. reflexivity.
Qed.

(** X7. What the Log pattern returns is what the line holds: when a line
    is recognised as a Log, the message returned is not empty, holds no line
    terminator, and the line contains [console.log(], a quote, the message,
    the same quote and a closing parenthesis, in that order. *)
Theorem log_message_is_quoted_text (rawLine m : string)
  (Hm : logMatch rawLine = Some m) :
  m <> EmptyString /\ oneLine m = true /\
  exists q pre post,
    isQuote q = true /\
    rawLine = (pre ++ "console.log(" ++ String q m ++ String q ")" ++ post)%string.
Proof. exact (logMatch_spec rawLine m Hm). Qed.

(** An instance: a message that itself holds a quote and a parenthesis. *)
Lemma log_message_is_quoted_text_witness :
  let l := "if (x) console.log('it's (ok)'); // done" in
  logMatch l = Some "it's (ok)" /\
  "it's (ok)" <> EmptyString /\ oneLine "it's (ok)" = true /\
  exists q pre post,
    isQuote q = true /\
    l = (pre ++ "console.log(" ++ String q "it's (ok)" ++ String q ")" ++ post)%string.
Proof.
  intros l.
  assert (logMatch l = Some "it's (ok)") as H by reflexivity.
  split; [exact H|]. exact (log_message_is_quoted_text l "it's (ok)" H).
Defined.

(** *** The delay on the closing line *)

Lemma spanDigits_spec s d r :
  spanDigits s = (d, r) -> allDigits d = true /\ s = (d ++ r)%string.
Proof.
  revert d r; induction s as [|c s IH]; intros d r; simpl.
  - intros [= <- <-]. auto.
  - destruct (isDigit c) eqn:Ec.
    + destruct (spanDigits s) as [d' r'] eqn:Es. intros [= <- <-].
      destruct (IH d' r' eq_refl) as (Hd & ->). simpl. rewrite Ec. auto.
    + intros [= <- <-]. auto.
Qed.

Lemma spanDigits_app d r :
  allDigits d = true ->
  match r with String c _ => isDigit c = false | EmptyString => True end ->
  spanDigits (d ++ r) = (d, r).
Proof.
  intros Hd Hr. induction d as [|c d IH]; simpl in *.
  - destruct r as [|c r]; [reflexivity|]. simpl. now rewrite Hr.
  - apply andb_prop in Hd as [Hc Hd]. rewrite Hc, (IH Hd). reflexivity.
Qed.

Lemma isDigit_value c :
  isDigit c = true -> 0 <= Z.of_nat (nat_of_ascii c) - 48 <= 9.
Proof.
  unfold isDigit. intros H. apply andb_prop in H as [H1 H2].
  apply Nat.leb_le in H1, H2. lia.
Qed.

Lemma parseDigits_nonneg d :
  allDigits d = true -> forall acc, 0 <= acc -> 0 <= parseDigits acc d.
Proof.
  induction d as [|c d IH]; cbn [parseDigits allDigits]; intros Hd acc Hacc;
    [exact Hacc|].
  apply andb_prop in Hd as [Hc Hd]. apply IH; [exact Hd|].
  pose proof (isDigit_value c Hc). lia.
Qed.

Lemma delayMatch_nonneg l d : delayMatch l = Some d -> 0 <= d.
Proof.
  unfold delayMatch. intros H.
  apply firstMatch_suffix in H as (pre & s' & _ & H).
  unfold delayAt in H.
  destruct (expect "}," s') as [r1|]; [|discriminate].
  destruct (spanDigits (skipSpaces r1)) as [dg r2] eqn:Es.
  apply spanDigits_spec in Es as [Hd _].
  destruct dg as [|c dg]; [discriminate|].
  destruct (startsWith ")" r2); [|discriminate].
  injection H as <-. unfold parseInt.
  apply NumFacts.roundDouble_nonneg. now apply parseDigits_nonneg.
Qed.

Lemma string_of_uint_digits u : allDigits (NilEmpty.string_of_uint u) = true.
Proof. induction u; simpl; auto. Qed.

Lemma parseDigits_of_uint u :
  forall acc, parseDigits (Z.of_nat acc) (NilEmpty.string_of_uint u) =
              Z.of_nat (Nat.of_uint_acc u acc).
Proof.
  induction u; intros acc; cbn [NilEmpty.string_of_uint parseDigits Nat.of_uint_acc];
    [reflexivity|..];
    rewrite <- IHu; f_equal; rewrite Nat.tail_mul_spec;
    match goal with
    | |- context [nat_of_ascii ?c] =>
        let v := eval vm_compute in (Z.of_nat (nat_of_ascii c)) in
        change (Z.of_nat (nat_of_ascii c)) with v
    end; lia.
Qed.

Lemma parseDigits_ofNat n : parseDigits 0 (ofNat n) = Z.of_nat n.
Proof.
  unfold ofNat.
  change 0 with (Z.of_nat 0). rewrite parseDigits_of_uint.
  change (Nat.of_uint_acc (Nat.to_uint n) 0) with (Nat.of_uint (Nat.to_uint n)).
  now rewrite DecimalNat.Unsigned.of_to.
Qed.

(** [parseInt] reads the decimal writing of [n] back as the double nearest
    to [n], which is [n] itself below [2^53]. *)
Lemma parseInt_ofNat n : parseInt (ofNat n) = Num.roundDouble (Z.of_nat n).
Proof. unfold parseInt. now rewrite parseDigits_ofNat. Qed.

Lemma parseInt_ofNat_exact n :
  Z.of_nat n < Num.exactBound -> parseInt (ofNat n) = Z.of_nat n.
Proof.
  intros Hn. rewrite parseInt_ofNat. apply NumFacts.roundDouble_exact.
  unfold Num.exactBound in *. lia.
Qed.

Lemma ofNat_inj a b : ofNat a = ofNat b -> a = b.
Proof.
  intros H. apply (f_equal (parseDigits 0)) in H.
  rewrite !parseDigits_ofNat in H. lia.
Qed.

Lemma ofNat_nonempty n : ofNat n <> EmptyString.
Proof.
  intros H. pose proof (parseDigits_ofNat n) as P. rewrite H in P.
  destruct n; [discriminate H|]. cbn in P. lia.
Qed.

Lemma skipSpaces_app sp r :
  allSpaces sp = true ->
  match r with String c _ => isSpace c = false | EmptyString => True end ->
  skipSpaces (sp ++ r) = r.
Proof.
  intros Hs Hr. induction sp as [|c sp IH]; simpl in *.
  - destruct r as [|c r]; [reflexivity|]. simpl. now rewrite Hr.
  - apply andb_prop in Hs as [Hc Hs]. rewrite Hc. now apply IH.
Qed.

Lemma digit_not_space c : isDigit c = true -> isSpace c = false.
Proof.
  unfold isDigit, isSpace. intros H. apply andb_prop in H as [H1 H2].
  apply Nat.leb_le in H1, H2.
  repeat match goal with
         | |- context [(?a <=? ?b)%nat] => destruct (Nat.leb_spec a b)
         | |- context [(?a =? ?b)%nat] => destruct (Nat.eqb_spec a b)
         end; simpl; try reflexivity; lia.
Qed.

Lemma firstMatch_indent {A} (f : string -> option A) indent s :
  allSpaces indent = true ->
  (forall c r, isSpace c = true -> f (String c r) = None) ->
  firstMatch f (indent ++ s) = firstMatch f s.
Proof.
  intros Hi Hf. induction indent as [|c indent IH]; [reflexivity|].
  simpl in Hi. apply andb_prop in Hi as [Hc Hi].
  cbn [append firstMatch]. rewrite (Hf c _ Hc). now apply IH.
Qed.

Lemma firstMatch_here {A} (f : string -> option A) s a :
  f s = Some a -> firstMatch f s = Some a.
Proof. intros H. destruct s; simpl; now rewrite H. Qed.

Lemma delayAt_space c r : isSpace c = true -> delayAt (String c r) = None.
Proof.
  intros Hc. unfold delayAt. cbn [expect].
  destruct (Ascii.eqb "}" c) eqn:E; [|reflexivity].
  apply Ascii.eqb_eq in E. subst c. discriminate.
Qed.

(** X8. The delay a timer is given is the number written on its closing
    line, as far as a double holds it.  On a closing line made of an
    indentation, [},], white space, the decimal writing of [n], a closing
    parenthesis and anything after it, the delay pattern reads [n] back
    when [n] is below [2^53]; and whatever the closing line, the delay read
    is never negative. *)
Theorem delay_is_read_back :
  (forall indent sp n rest,
      allSpaces indent = true -> allSpaces sp = true ->
      Z.of_nat n < Num.exactBound ->
      delayMatch (indent ++ "}," ++ sp ++ ofNat n ++ ")" ++ rest)
      = Some (Z.of_nat n)) /\
  (forall closingLine d, delayMatch closingLine = Some d -> 0 <= d).
Proof.
  split; [|exact delayMatch_nonneg].
  intros indent sp n rest Hi Hs Hn. unfold delayMatch.
  rewrite (firstMatch_indent _ _ _ Hi delayAt_space).
  assert (delayAt ("}," ++ sp ++ ofNat n ++ ")" ++ rest) = Some (Z.of_nat n))
    as H.
  { unfold delayAt. cbn [expect append Ascii.eqb Bool.eqb].
    assert (allDigits (ofNat n) = true) as Hd by apply string_of_uint_digits.
    pose proof (ofNat_nonempty n) as Hne.
    rewrite skipSpaces_app; [|exact Hs|].
    2:{ destruct (ofNat n) as [|c r] eqn:E; [congruence|]. simpl.
        simpl in Hd. apply andb_prop in Hd as [Hc _].
        now apply digit_not_space. }
    rewrite spanDigits_app; [|exact Hd|reflexivity].
    assert (startsWith ")" (String ")" rest) = true) as Hp
      by (destruct rest; reflexivity).
    rewrite Hp.
    destruct (ofNat n) as [|c r] eqn:E; [congruence|].
    rewrite <- E, (parseInt_ofNat_exact n Hn). reflexivity. }
  now apply firstMatch_here.
Qed.

(** An instance: a nested closing line with a delay of 1500. *)
Lemma delay_is_read_back_witness :
  Z.of_nat 1500 < Num.exactBound /\
  delayMatch ("    " ++ "}," ++ " " ++ ofNat 1500 ++ ")" ++ ";") = Some 1500 /\
  0 <= 1500.
Proof.
  destruct delay_is_read_back as [Hread Hpos].
  assert (Z.of_nat 1500 < Num.exactBound) as Hn by reflexivity.
  pose proof (Hread "    " " " 1500%nat ";" eq_refl eq_refl Hn) as H.
  split; [exact Hn|]. split; [exact H|].
  exact (Hpos _ _ H).
Defined.

(** *** The trees the parser builds *)

Lemma lineIn_weaken lo hi lo' hi' t :
  (lo' <= lo)%nat -> (hi <= hi')%nat -> lineIn lo hi t -> lineIn lo' hi' t.
Proof. intros H1 H2 (n & Hn & Hr). exists n. split; [exact Hn|lia]. Qed.

Lemma treeInv_nil lo hi c : treeInv lo hi c [] c.
Proof. repeat split; [constructor|simpl; lia]. Qed.

Lemma treeInv_weaken lo hi lo' hi' c ts c' :
  (lo' <= lo)%nat -> (hi <= hi')%nat ->
  treeInv lo hi c ts c' -> treeInv lo' hi' c ts c'.
Proof.
  intros H1 H2 (Hall & Hid & Hc). split; [|split; assumption].
  eapply Forall_impl; [|exact Hall].
  intros t [Hs Hl]. split; [exact Hs|]. now apply (lineIn_weaken lo hi).
Qed.

Lemma lineNo_lineIn i e t :
  (i < e)%nat -> line t = lineNo i -> lineIn i e t.
Proof.
  intros Hi Hl. exists (S i). split; [|lia].
  rewrite Hl. unfold lineNo. f_equal. lia.
Qed.

Lemma taskNames_app c a b :
  taskNames c (a + b) = taskNames c a ++ taskNames (c + a) b.
Proof. unfold taskNames. now rewrite seq_app, map_app. Qed.

Lemma treeInv_leaf i e c rest c' ty ct d :
  (i < e)%nat ->
  let t := mkTask ("task-" ++ ofNat c) ty ct d None (lineNo i) in
  shapeOk t ->
  treeInv (S i) e (S c) rest c' ->
  treeInv i e c (t :: rest) c'.
Proof.
  intros Hi t Hs Hrest.
  apply (treeInv_weaken _ _ i e) in Hrest; [|lia|lia].
  destruct Hrest as (Hall & Hid & Hc).
  unfold treeInv. change (postorder (t :: rest)) with (t :: postorder rest).
  split; [|split].
  - constructor; [|exact Hall]. split; [exact Hs|].
    now apply lineNo_lineIn.
  - simpl. rewrite Hid. reflexivity.
  - simpl. lia.
Qed.

Lemma treeInv_node i j e c body c1 rest c2 ty ct d :
  (S i <= j <= e)%nat ->
  let t := mkTask ("task-" ++ ofNat c1) ty ct d (Some body) (lineNo i) in
  shapeOk t ->
  treeInv (S i) j c body c1 ->
  treeInv (S j) e (S c1) rest c2 ->
  treeInv i e c (t :: rest) c2.
Proof.
  intros Hj t Hs Hbody Hrest.
  apply (treeInv_weaken _ _ i e) in Hbody; [|lia|lia].
  apply (treeInv_weaken _ _ i e) in Hrest; [|lia|lia].
  destruct Hbody as (Hall1 & Hid1 & Hc1), Hrest as (Hall2 & Hid2 & Hc2).
  unfold treeInv.
  change (postorder (t :: rest))
    with ((postorder body ++ [t]) ++ postorder rest).
  split; [|split].
  - apply Forall_app. split; [apply Forall_app; split|]; try assumption.
    constructor; [|constructor]. split; [exact Hs|].
    apply lineNo_lineIn; [lia|reflexivity].
  - rewrite !map_app, Hid1, Hid2.
    replace (List.length ((postorder body ++ [t]) ++ postorder rest))
      with (List.length (postorder body) + (1 + List.length (postorder rest)))%nat
      by (rewrite !length_app; simpl; lia).
    rewrite taskNames_app, (taskNames_app _ 1), <- app_assoc.
    subst c1.
    replace (c + List.length (postorder body) + 1)%nat
      with (S (c + List.length (postorder body))) by lia.
    reflexivity.
  - rewrite !length_app. simpl. lia.
Qed.

Lemma findClose_in_range lines i e j :
  (i < e <= List.length lines)%nat -> findClose lines i e = Ok j ->
  (S i <= j <= e)%nat.
Proof.
  intros Hr Ej. destruct (findClose_bounds lines i e Hr) as (j' & Ej' & Hj).
  rewrite Ej in Ej'. now injection Ej' as ->.
Qed.

Ltac callback_inv IH H Hr :=
  let j := fresh "j" in let Ej := fresh "Ej" in
  let body := fresh "body" in let c1 := fresh "c" in let Eb := fresh "Eb" in
  let rest := fresh "rest" in let c2 := fresh "c" in let Er := fresh "Er" in
  unfold bind, liftR, genId, ret in H;
  match type of H with
  | context [findClose ?lines ?i ?e] =>
      destruct (findClose lines i e) as [j| |] eqn:Ej; try discriminate H;
      cbv beta iota in H;
      match type of H with
      | context [parseBlock ?fuel lines (S i) j ?c] =>
          destruct (parseBlock fuel lines (S i) j c) as [[body c1]| |] eqn:Eb;
          try discriminate H; cbv beta iota in H;
          destruct (parseBlock fuel lines (S j) e (S c1))
            as [[rest c2]| |] eqn:Er;
          try discriminate H; cbv beta iota in H;
          injection H as <- <-;
          pose proof (findClose_in_range lines i e j Hr Ej);
          apply (treeInv_node i j e c body c1 rest c2);
          [ assumption
          | idtac
          | apply (IH (S i) j c body c1); [lia | exact Eb]
          | apply (IH (S j) e (S c1) rest c2); [lia | exact Er] ]
      end
  end.

Lemma parseBlock_inv lines :
  forall fuel i e c ts c',
    (e <= List.length lines)%nat ->
    parseBlock fuel lines i e c = Ok (ts, c') ->
    treeInv i e c ts c'.
Proof.
  induction fuel as [|fuel IH]; intros i e c ts c' Hlen H.
  - simpl in H. destruct (e <=? i)%nat; [|discriminate].
    injection H as <- <-. apply treeInv_nil.
  - cbn [parseBlock] in H.
    destruct (Nat.leb_spec e i) as [Hle|Hlt].
    { injection H as <- <-. apply treeInv_nil. }
    assert (i < e <= List.length lines)%nat as Hr by lia.
    unfold bind at 1, liftR, getLine in H.
    destruct (nth_error lines i) as [l|]; [|discriminate].
    cbv beta iota in H.
    destruct (String.eqb (trim l) EmptyString || startsWith "//" (trim l)).
    { apply (treeInv_weaken (S i) e); [lia|lia|]. now apply (IH _ _ _ _ _ Hlen). }
    destruct (logMatch (trim l)) as [msg|] eqn:Elog.
    { unfold bind, genId, ret in H.
      destruct (parseBlock fuel lines (S i) e (S c)) as [[rest c1]| |] eqn:Er;
        try discriminate.
      injection H as <- <-.
      apply treeInv_leaf; [lia| |now apply (IH _ _ _ _ _ Hlen)].
      simpl. repeat split. now apply logMatch_spec in Elog. }
    destruct (timeoutStart (trim l)).
    { callback_inv IH H Hr. simpl. split; [now left|]. split; [|eexists; reflexivity].
      destruct (delayMatch (closingLineOf lines j)) as [d|] eqn:Ed.
      - exists d. split; [reflexivity|]. now apply delayMatch_nonneg in Ed.
      - exists 0. split; [reflexivity|lia]. }
    destruct (immediateStart (trim l)).
    { callback_inv IH H Hr. simpl. split; [now right|]. split; [|eexists; reflexivity].
      exists 0. split; [reflexivity|lia]. }
    destruct (microStart (trim l)).
    { callback_inv IH H Hr. simpl. split; [|split; [reflexivity|eexists; reflexivity]].
      unfold microLabel.
      destruct (includes "process.nextTick" (trim l)); [auto|].
      destruct (includes "queueMicrotask" (trim l)); auto. }
    apply (treeInv_weaken (S i) e); [lia|lia|]. now apply (IH _ _ _ _ _ Hlen).
Qed.

Lemma parseCode_inv idCounter code ts n :
  parseCode idCounter code = Ok (ts, n) ->
  treeInv 0 (List.length (split_nl code)) 0 ts n.
Proof.
  unfold parseCode. intros H.
  now apply (parseBlock_inv _ _ _ _ _ _ _ (Nat.le_refl _)) in H.
Qed.

Lemma taskName_inj a b :
  ("task-" ++ ofNat a)%string = ("task-" ++ ofNat b)%string -> a = b.
Proof. simpl. intros [= H]. now apply ofNat_inj. Qed.

Lemma taskNames_NoDup c n : NoDup (taskNames c n).
Proof.
  unfold taskNames. apply Finite.Injective_map_NoDup; [|apply seq_NoDup].
  intros a b. apply taskName_inj.
Qed.

(** X9. Every task of a parsed tree, at any depth, has one of three shapes:
    a Log with a non-empty message, no delay and no body; a timer
    registration labelled [setTimeout] or [setImmediate] with a delay that
    is not negative and a body; a microtask registration with one of the
    three labels, no delay and a body.  None is a main-script wrapper, and
    each carries the number of a line of the text, counted from 1. *)
Theorem parsed_tasks_are_well_shaped (idCounter : nat) (code : string) :
  exists ts n,
    parseCode idCounter code = Ok (ts, n) /\
    Forall shapeOk (postorder ts) /\
    Forall (fun t => exists k, line t = Some (Z.of_nat k) /\
                       (1 <= k <= List.length (split_nl code))%nat)
           (postorder ts).
Proof.
  destruct (parseCode_total idCounter code) as (ts & n & E).
  exists ts, n. split; [exact E|].
  destruct (parseCode_inv _ _ _ _ E) as (Hall & _ & _).
  split; eapply Forall_impl; try exact Hall.
  - now intros t [Hs _].
  - intros t [_ (k & Hk & Hr)]. exists k. split; [exact Hk|lia].
Qed.

(** X10. The identifiers of a parsed tree are [task-0], [task-1], ... in
    the order the parser finishes the tasks (the tasks of a body before the
    registration that holds them), one per task, so no two tasks of a tree
    share an identifier; and the counter is left at the number of tasks. *)
Theorem parsed_identifiers_are_unique (idCounter : nat) (code : string) :
  exists ts n,
    parseCode idCounter code = Ok (ts, n) /\
    map id (postorder ts) = taskNames 0 n /\
    n = List.length (postorder ts) /\
    NoDup (map id (postorder ts)).
Proof.
  destruct (parseCode_total idCounter code) as (ts & n & E).
  exists ts, n. split; [exact E|].
  destruct (parseCode_inv _ _ _ _ E) as (_ & Hid & Hn).
  simpl in Hn. subst n. split; [exact Hid|]. split; [reflexivity|].
  rewrite Hid. apply taskNames_NoDup.
Qed.

End TreeFacts.

Module ConservationFacts.
Import Str Parser ParserView Engine Observe Handlers Shape.
Import EngineFacts ParserFacts TreeFacts SessionFacts.

Lemma cnt_app x a b : cnt x (a ++ b) = (cnt x a + cnt x b)%nat.
Proof. apply count_occ_app. Qed.

Lemma wellFormed_cons t r :
  wellFormed (t :: r) <->
  shapeOk t /\ wellFormed (orEmpty (children t)) /\ wellFormed r.
Proof.
  unfold wellFormed.
  assert (postorder (t :: r) =
          (postorder (orEmpty (children t)) ++ [t]) ++ postorder r) as ->.
  { destruct t as [i ty c d [b|] l]; reflexivity. }
  rewrite !Forall_app. split.
  - intros ((H1 & H2) & H3). inversion H2; subst. auto.
  - intros (H1 & H2 & H3). auto.
Qed.

Lemma logs_of_shaped t :
  shapeOk t ->
  logsOfTask t =
  match type t with
  | LOG => [content t]
  | _ => extractLogsRecursive (orEmpty (children t))
  end.
Proof.
  destruct t as [i ty c d ch l]. unfold shapeOk. simpl.
  destruct ty; simpl.
  - intros (_ & _ & ->). reflexivity.
  - intros (_ & _ & (b & ->)). reflexivity.
  - intros (_ & _ & (b & ->)). reflexivity.
  - intros [].
Qed.

Lemma currentTask_remaining frame task :
  currentTask frame = Some task ->
  remaining frame = task :: remaining (advance frame).
Proof.
  unfold currentTask, remaining. simpl.
  destruct (linesOfCode frame) as [body|]; [|discriminate]. simpl.
  revert body. generalize (currentLineIndex frame) as k.
  induction k as [|k IH]; intros [|a body]; simpl; try discriminate.
  - now intros [= ->].
  - apply IH.
Qed.

Lemma currentTask_none frame : currentTask frame = None -> remaining frame = [].
Proof.
  unfold currentTask, remaining.
  destruct (linesOfCode frame) as [body|]; simpl.
  - intros H. apply nth_error_None in H. now apply skipn_all2.
  - intros _. now destruct (currentLineIndex frame).
Qed.

Lemma step_conserves now random s :
  waitingOk s ->
  waitingOk (step now random s) /\
  forall x, cnt x (consoleOutput (step now random s) ++
                   waitingLogs (step now random s))
            = cnt x (consoleOutput s ++ waitingLogs s).
Proof.
  unfold waitingOk, waitingLogs, step. intros (Hst & Hw & Hmi & Hma).
  destruct (unsnoc (callStack s)) as [[below frame]|] eqn:Est.
  - apply unsnoc_Some in Est. rewrite Est in *.
    apply Forall_app in Hst as [Hbelow Hfr].
    inversion Hfr as [|? ? Hfr' _]; subst.
    destruct (currentTask frame) as [task|] eqn:Et; simpl.
    + rewrite (currentTask_remaining _ _ Et) in Hfr'.
      apply wellFormed_cons in Hfr' as (Hshape & Hbody & Hrest).
      pose proof (logs_of_shaped task Hshape) as Hlogs.
      assert (Forall (fun f => wellFormed (remaining f))
                     (below ++ [advance frame])) as Hst'
        by (apply Forall_app; split; [exact Hbelow|now constructor]).
      unfold shapeOk in Hshape.
      destruct (type task) eqn:Ety.
      * (* Log *)
        destruct Hshape as (_ & _ & Hch).
        split; [auto|]. intros x.
        rewrite !flat_map_app, !cnt_app. simpl flat_map.
        rewrite (currentTask_remaining _ _ Et). unfold extractLogsRecursive.
        simpl flat_map. rewrite Hlogs, !app_nil_r, !cnt_app. simpl. lia.
      * (* timer registration *)
        destruct Hshape as (_ & _ & (b & Hch)).
        split.
        { split; [exact Hst'|]. split; [|auto].
          apply Forall_app. split; [exact Hw|]. constructor; [|constructor].
          simpl. now rewrite Hch in *. }
        intros x.
        rewrite !flat_map_app, !cnt_app. simpl flat_map.
        rewrite (currentTask_remaining _ _ Et). unfold extractLogsRecursive.
        simpl flat_map. rewrite Hlogs, Hch, !app_nil_r, !cnt_app. simpl.
        unfold extractLogsRecursive. lia.
      * (* microtask registration *)
        destruct Hshape as (_ & _ & (b & Hch)). rewrite Hch.
        split.
        { split; [exact Hst'|]. split; [exact Hw|]. split; [|exact Hma].
          apply Forall_app. split; [exact Hmi|]. constructor; [|constructor].
          simpl. now rewrite Hch in *. }
        intros x.
        rewrite !flat_map_app, !cnt_app. simpl flat_map.
        rewrite (currentTask_remaining _ _ Et). unfold extractLogsRecursive.
        simpl flat_map. rewrite Hlogs, Hch, !app_nil_r, !cnt_app. simpl.
        unfold extractLogsRecursive. lia.
      * destruct Hshape.
    + split; [auto|]. intros x.
      rewrite !flat_map_app, !cnt_app. simpl flat_map.
      rewrite (currentTask_none _ Et). simpl. lia.
  - apply unsnoc_None in Est. rewrite Est in *.
    destruct (microtaskQueue s) as [|m q] eqn:Em.
    + destruct (macrotaskQueue s) as [|t q'] eqn:Ema; simpl.
      * split; [auto|reflexivity].
      * inversion Hma as [|? ? Ht Hq']; subst.
        split.
        { split; [|auto]. constructor; [|constructor]. exact Ht. }
        intros x. simpl. unfold remaining. simpl.
        rewrite !app_nil_r, !cnt_app. lia.
    + inversion Hmi as [|? ? Hm Hq]; subst. simpl. split.
      { split; [|auto]. constructor; [|constructor]. exact Hm. }
      intros x. simpl. unfold remaining. simpl.
      rewrite !app_nil_r, !cnt_app. lia.
Qed.

Lemma tick_logs x (w : list WebApiTask) :
  let kept := map decremented (filter (fun a => negb (remainingTime a <=? 0)) w) in
  let gone := map promoted (filter (fun a => remainingTime a <=? 0) w) in
  Nat.add
    (cnt x (flat_map (fun a => extractLogsRecursive
                                 (orEmpty (children (api_task a)))) kept))
    (cnt x (flat_map (fun t => extractLogsRecursive (orEmpty (children t)))
              gone))
  = cnt x (flat_map (fun a => extractLogsRecursive
                                (orEmpty (children (api_task a)))) w).
Proof.
  cbv zeta. induction w as [|a w IH]; [reflexivity|]. cbn [filter].
  destruct (remainingTime a <=? 0); cbn [negb map flat_map];
    rewrite !cnt_app; change (children (promoted a)) with (children (api_task a));
    change (api_task (decremented a)) with (api_task a); lia.
Qed.

Lemma tick_shapes (w : list WebApiTask) :
  Forall (fun a => wellFormed (orEmpty (children (api_task a)))) w ->
  Forall (fun a => wellFormed (orEmpty (children (api_task a))))
         (map decremented (filter (fun a => negb (remainingTime a <=? 0)) w)) /\
  Forall (fun t => wellFormed (orEmpty (children t)))
         (map promoted (filter (fun a => remainingTime a <=? 0) w)).
Proof.
  induction 1 as [|a w Ha _ [IH1 IH2]]; simpl; [split; constructor|].
  destruct (remainingTime a <=? 0); simpl; split; auto.
Qed.

Lemma tick_conserves s :
  waitingOk s ->
  waitingOk (tick s) /\
  forall x, cnt x (consoleOutput (tick s) ++ waitingLogs (tick s))
            = cnt x (consoleOutput s ++ waitingLogs s).
Proof.
  rewrite tick_closed_form. unfold waitingOk, waitingLogs.
  cbn [consoleOutput webApis microtaskQueue macrotaskQueue callStack].
  intros (Hst & Hw & Hmi & Hma).
  destruct (tick_shapes _ Hw) as [Hw1 Hw2]. split.
  - split; [exact Hst|]. split; [exact Hw1|]. split; [exact Hmi|].
    apply Forall_app. auto.
  - intros x. rewrite flat_map_app, !cnt_app.
    pose proof (tick_logs x (webApis s)) as H. cbv zeta in H. lia.
Qed.

Lemma reachable_conserved s : reachable s -> conserved s.
Proof.
  induction 1 as [c newCode autoPlay prev s Hr | s e _ [Hok Hcnt]].
  - unfold resetEngine in Hr.
    destruct (parseCode c newCode) as [[tasks c']| |] eqn:Ep; try discriminate.
    injection Hr as <-.
    destruct (parseCode_inv _ _ _ _ Ep) as (Hall & _ & _).
    split.
    + unfold waitingOk. simpl. repeat split; try constructor; [|constructor].
      unfold remaining, wellFormed. simpl.
      eapply Forall_impl; [|exact Hall]. now intros t [Hs _].
    + intros x. unfold waitingLogs, remaining. simpl.
      now rewrite !app_nil_r.
  - assert (parsedTasks (apply s e) = parsedTasks s) as Hp.
    { destruct e as [now random|]; simpl.
      - unfold step. destruct (unsnoc (callStack s)) as [[below frame]|].
        + destruct (currentTask frame); reflexivity.
        + destruct (microtaskQueue s); [destruct (macrotaskQueue s)|];
            reflexivity.
      - now rewrite tick_closed_form. }
    unfold conserved. rewrite Hp.
    destruct e as [now random|]; simpl.
    + destruct (step_conserves now random s Hok) as [Hok' Hc'].
      split; [exact Hok'|]. intros x. now rewrite Hc'.
    + destruct (tick_conserves s Hok) as [Hok' Hc'].
      split; [exact Hok'|]. intros x. now rewrite Hc'.
Qed.

Lemma verdict_true p s : verdict p s = true <-> p = consoleOutput s.
Proof.
  unfold verdict.
  destruct (list_eq_dec string_dec p (consoleOutput s)); split; congruence.
Qed.

(** X11. No message is lost and none is printed twice.  In every state of
    a session, the messages printed so far together with the messages still
    waiting (in the frames' remaining instructions and in the bodies held by
    the pending timers and the two queues) are, up to order, the messages
    [extractLogsRecursive] finds in the parsed tree.  So a finished session
    has printed a rearrangement of the list the prediction game shuffles:
    the arrangement that matches the output wins, and only rearrangements
    of that list can win. *)
Theorem logs_are_conserved (s : EngineState) (Hs : reachable s) :
  Permutation (consoleOutput s ++ waitingLogs s)
              (extractLogsRecursive (parsedTasks s)) /\
  (isFinished s = true ->
   Permutation (consoleOutput s) (extractLogsRecursive (parsedTasks s)) /\
   verdict (consoleOutput s) s = true /\
   forall prediction,
     verdict prediction s = true ->
     Permutation prediction (extractLogsRecursive (parsedTasks s))).
Proof.
  destruct (reachable_conserved s Hs) as [_ Hcnt].
  assert (Permutation (consoleOutput s ++ waitingLogs s)
                      (extractLogsRecursive (parsedTasks s))) as Hperm
    by (apply (Permutation_count_occ string_dec); exact Hcnt).
  split; [exact Hperm|].
  intros Hf.
  destruct (reachable_settled s Hs Hf) as ((H1 & H2 & H3 & H4) & _).
  assert (waitingLogs s = []) as Hw
    by (unfold waitingLogs; now rewrite H1, H2, H3, H4).
  rewrite Hw, app_nil_r in Hperm.
  split; [exact Hperm|]. split; [now apply verdict_true|].
  intros p Hp. apply verdict_true in Hp. now subst p.
Qed.

(** An instance: the nested sample of the generator's complex mode, run to
    the end. *)
Lemma logs_are_conserved_witness :
  let text := join_nl
    [ "console.log('Start');";
      "setTimeout(() => {";
      "  console.log('Timeout 1');";
      "  Promise.resolve().then(() => {";
      "    console.log('Promise inside Timeout');";
      "  });";
      "}, 0);";
      "console.log('End');" ] in
  let st := EvStep 10 "0.5" in
  let s := run [st; st; st; st; EvTick; st; st; st; st; st; st; st; st; st]
               (startOf text) in
  reachable s /\ isFinished s = true /\
  consoleOutput s = ["Start"; "End"; "Timeout 1"; "Promise inside Timeout"] /\
  Permutation (consoleOutput s) (extractLogsRecursive (parsedTasks s)).
Proof.
  intros text st s.
  assert (reachable s) as Hs
    by (apply reachable_run, reachable_startOf; eexists; reflexivity).
  assert (isFinished s = true) as Hf by reflexivity.
  split; [exact Hs|]. split; [exact Hf|]. split; [reflexivity|].
  exact (proj1 (proj2 (logs_are_conserved s Hs) Hf)).
Defined.

End ConservationFacts.

Module ProgressFacts.
Import Str Parser ParserView Engine Observe Handlers Shape.
Import EngineFacts ParserFacts TreeFacts SessionFacts ConservationFacts.

Lemma list_sum_snoc {A} (f : A -> nat) l x :
  list_sum (map f (l ++ [x])) = (list_sum (map f l) + f x)%nat.
Proof. rewrite map_app, list_sum_app. simpl. lia. Qed.

Lemma list_sum_cons x l : list_sum (x :: l) = (x + list_sum l)%nat.
Proof. reflexivity. Qed.

Lemma costOf_eq t :
  costOf t =
  match type t with
  | LOG | MAIN => 1
  | TIMEOUT =>
      1 + (ticksFor (orZero (delay t)) + 2 + costs (orEmpty (children t)))
  | PROMISE =>
      match children t with
      | Some b => 1 + (2 + costs b)
      | None => 1
      end
  end%nat.
Proof.
  destruct t as [i ty c d [b|] l]; destruct ty; reflexivity.
Qed.

Lemma costs_cons t r : costs (t :: r) = (costOf t + costs r)%nat.
Proof. reflexivity. Qed.

(** A step that finds a frame or a queued callback does one unit of
    work. *)
Lemma step_weight now random s :
  callStack s <> [] \/ microtaskQueue s <> [] \/ macrotaskQueue s <> [] ->
  S (weight (step now random s)) = weight s.
Proof.
  intros Hwork. unfold weight, step.
  destruct (unsnoc (callStack s)) as [[below frame]|] eqn:Est.
  - apply unsnoc_Some in Est. rewrite Est.
    destruct (currentTask frame) as [task|] eqn:Et;
      cbn [callStack webApis microtaskQueue macrotaskQueue].
    + pose proof (currentTask_remaining _ _ Et) as Hrem.
      pose proof (costOf_eq task) as Hcost.
      assert (frameCost frame = (costOf task + frameCost (advance frame))%nat)
        as Hfr by (unfold frameCost; rewrite Hrem, costs_cons; lia).
      rewrite !list_sum_snoc, Hfr.
      destruct (type task).
      * lia.
      * rewrite list_sum_snoc. unfold apiCost at 2.
        cbn [webApiOf remainingTime api_task]. lia.
      * destruct (children task) as [b|].
        -- rewrite list_sum_snoc. unfold entryCost at 2.
           cbn [microTaskOf children orEmpty]. lia.
        -- lia.
      * lia.
    + pose proof (currentTask_none _ Et) as Hrem.
      assert (frameCost frame = 1%nat) as Hfr
        by (unfold frameCost; now rewrite Hrem).
      rewrite !list_sum_snoc, Hfr. lia.
  - apply unsnoc_None in Est. rewrite Est in *.
    destruct (microtaskQueue s) as [|m q].
    + destruct (macrotaskQueue s) as [|t q'].
      * exfalso. destruct Hwork as [H|[H|H]]; now apply H.
      * cbn [callStack webApis microtaskQueue macrotaskQueue].
        simpl. unfold frameCost, entryCost, remaining. simpl. lia.
    + cbn [callStack webApis microtaskQueue macrotaskQueue].
      simpl. unfold frameCost, entryCost, remaining. simpl. lia.
Qed.

(** A step that finds nothing to run leaves the work as it is. *)
Lemma step_weight_idle now random s :
  callStack s = [] -> microtaskQueue s = [] -> macrotaskQueue s = [] ->
  weight (step now random s) = weight s /\
  webApis (step now random s) = webApis s /\
  callStack (step now random s) = [] /\
  microtaskQueue (step now random s) = [] /\
  macrotaskQueue (step now random s) = [] /\
  (webApis s = [] -> isFinished (step now random s) = true).
Proof.
  intros Hs Hm Ht. unfold weight, step. rewrite Hs, Hm, Ht. simpl.
  repeat split. now intros ->.
Qed.

Lemma ticksFor_lower r : 0 < r -> ticksFor r = S (ticksFor (r - 100)).
Proof.
  intros Hr. unfold ticksFor.
  destruct (Z.leb_spec r 0) as [|_]; [lia|].
  replace (r + 99) with ((r - 1) + 1 * 100) by lia.
  rewrite Z.div_add by lia.
  destruct (Z.leb_spec (r - 100) 0) as [Hle|Hgt].
  - assert ((r - 1) / 100 = 0) as -> by (apply Z.div_small; lia).
    reflexivity.
  - replace (r - 100 + 99) with (r - 1) by lia.
    assert (0 <= (r - 1) / 100) by (apply Z.div_pos; lia).
    f_equal. rewrite Z2Nat.inj_add by lia. simpl. lia.
Qed.

Lemma tick_weight_list (w : list WebApiTask) :
  Forall (fun a => remainingTime a < Num.exactBound) w ->
  let kept := map decremented (filter (fun a => negb (remainingTime a <=? 0)) w) in
  let gone := map promoted (filter (fun a => remainingTime a <=? 0) w) in
  (list_sum (map apiCost kept) + list_sum (map entryCost gone) + List.length w
   = list_sum (map apiCost w))%nat.
Proof.
  cbv zeta. induction 1 as [|a w Ha Hw IH]; [reflexivity|]. cbn [filter].
  destruct (Z.leb_spec (remainingTime a) 0) as [Hle|Hgt];
    cbn [negb map List.length]; rewrite !list_sum_cons.
  - unfold entryCost at 1, apiCost at 2.
    change (children (promoted a)) with (children (api_task a)).
    unfold ticksFor. destruct (Z.leb_spec (remainingTime a) 0); lia.
  - unfold apiCost at 1 3.
    change (api_task (decremented a)) with (api_task a).
    rewrite (decremented_exact a) by lia.
    rewrite (ticksFor_lower (remainingTime a)) by lia. lia.
Qed.

(** A tick takes one unit off every pending timer, as long as the timers
    count down in the exact range. *)
Lemma tick_weight s :
  Forall (fun a => remainingTime a < Num.exactBound) (webApis s) ->
  (weight (tick s) + List.length (webApis s) = weight s)%nat.
Proof.
  intros Hb. rewrite tick_closed_form. unfold weight.
  cbn [callStack webApis microtaskQueue macrotaskQueue].
  rewrite map_app, list_sum_app.
  pose proof (tick_weight_list (webApis s) Hb) as H. cbv zeta in H. lia.
Qed.

Lemma delaysOk_cons t r :
  delaysOk (t :: r) <->
  delayOk t /\ delaysOk (orEmpty (children t)) /\ delaysOk r.
Proof.
  unfold delaysOk.
  assert (postorder (t :: r) =
          (postorder (orEmpty (children t)) ++ [t]) ++ postorder r) as ->.
  { destruct t as [i ty c d [b|] l]; reflexivity. }
  rewrite !Forall_app. split.
  - intros ((H1 & H2) & H3). inversion H2; subst. auto.
  - intros (H1 & H2 & H3). auto.
Qed.

Lemma bounded_pending s :
  bounded s -> Forall (fun a => remainingTime a < Num.exactBound) (webApis s).
Proof.
  intros (_ & Hw & _). eapply Forall_impl; [|exact Hw]. now intros a [H _].
Qed.

Lemma step_bounded now random s : bounded s -> bounded (step now random s).
Proof.
  unfold bounded, step. intros (Hst & Hw & Hmi & Hma).
  destruct (unsnoc (callStack s)) as [[below frame]|] eqn:Est.
  - apply unsnoc_Some in Est. rewrite Est in *.
    apply Forall_app in Hst as [Hbelow Hfr].
    inversion Hfr as [|? ? Hfr' _]; subst.
    destruct (currentTask frame) as [task|] eqn:Et;
      cbn [callStack webApis microtaskQueue macrotaskQueue].
    + rewrite (currentTask_remaining _ _ Et) in Hfr'.
      apply delaysOk_cons in Hfr' as (Hd & Hbody & Hrest).
      assert (Forall (fun f => delaysOk (remaining f))
                     (below ++ [advance frame])) as Hst'
        by (apply Forall_app; split; [exact Hbelow|now constructor]).
      split; [exact Hst'|]. split; [|split; [|exact Hma]].
      * destruct (type task); try exact Hw.
        apply Forall_app. split; [exact Hw|]. constructor; [|constructor].
        split; [exact Hd | exact Hbody].
      * destruct (type task); try exact Hmi.
        destruct (children task) as [b|] eqn:Ech; [|exact Hmi].
        apply Forall_app. split; [exact Hmi|]. constructor; [|constructor].
        exact Hbody.
    + auto.
  - apply unsnoc_None in Est. rewrite Est in *.
    destruct (microtaskQueue s) as [|m q] eqn:Em.
    + destruct (macrotaskQueue s) as [|t q'] eqn:Ema;
        cbn [callStack webApis microtaskQueue macrotaskQueue].
      * auto.
      * inversion Hma as [|? ? Ht Hq']; subst.
        split; [|auto]. constructor; [|constructor]. exact Ht.
    + inversion Hmi as [|? ? Hm Hq]; subst.
      cbn [callStack webApis microtaskQueue macrotaskQueue].
      split; [|auto]. constructor; [|constructor]. exact Hm.
Qed.

Lemma tick_bounded_lists (w : list WebApiTask) :
  Forall (fun a => remainingTime a < Num.exactBound /\
                   delaysOk (orEmpty (children (api_task a)))) w ->
  Forall (fun a => remainingTime a < Num.exactBound /\
                   delaysOk (orEmpty (children (api_task a))))
         (map decremented (filter (fun a => negb (remainingTime a <=? 0)) w)) /\
  Forall (fun t => delaysOk (orEmpty (children t)))
         (map promoted (filter (fun a => remainingTime a <=? 0) w)).
Proof.
  induction 1 as [|a w [Ha Hc] _ [IH1 IH2]]; cbn [filter map];
    [split; constructor|].
  destruct (Z.leb_spec (remainingTime a) 0) as [Hle|Hgt]; cbn [negb map].
  - split; [exact IH1|]. constructor; [exact Hc|exact IH2].
  - split; [|exact IH2]. constructor; [|exact IH1].
    split; [|exact Hc]. rewrite (decremented_exact a) by lia. lia.
Qed.

Lemma tick_bounded s : bounded s -> bounded (tick s).
Proof.
  rewrite tick_closed_form. unfold bounded.
  cbn [callStack webApis microtaskQueue macrotaskQueue].
  intros (Hst & Hw & Hmi & Hma).
  destruct (tick_bounded_lists _ Hw) as [Hw1 Hw2].
  split; [exact Hst|]. split; [exact Hw1|]. split; [exact Hmi|].
  apply Forall_app. auto.
Qed.

Lemma weight_zero s :
  weight s = 0%nat ->
  callStack s = [] /\ webApis s = [] /\
  microtaskQueue s = [] /\ macrotaskQueue s = [].
Proof.
  unfold weight. intros H.
  destruct (callStack s) as [|f st]; [|simpl in H; unfold frameCost in H; lia].
  destruct (webApis s) as [|a w];
    [|simpl in H; unfold apiCost, ticksFor in H;
      destruct (remainingTime a <=? 0); lia].
  destruct (microtaskQueue s) as [|m q];
    [|simpl in H; unfold entryCost in H; lia].
  destruct (macrotaskQueue s) as [|t q'];
    [|simpl in H; unfold entryCost in H; lia].
  auto.
Qed.

Lemma round_done now random s :
  callStack s = [] -> webApis s = [] ->
  microtaskQueue s = [] -> macrotaskQueue s = [] ->
  let s' := tick (step now random s) in
  isFinished s' = true /\
  callStack s' = [] /\ webApis s' = [] /\
  microtaskQueue s' = [] /\ macrotaskQueue s' = [].
Proof.
  intros Hs Hw Hm Ht.
  destruct (step_weight_idle now random s Hs Hm Ht)
    as (_ & Hw' & Hs' & Hm' & Ht' & Hf).
  rewrite Hw in Hw'. cbv zeta. rewrite (tick_no_pending _ Hw').
  repeat split; auto.
Qed.

Lemma rounds_stay_finished now random n s :
  callStack s = [] -> webApis s = [] ->
  microtaskQueue s = [] -> macrotaskQueue s = [] ->
  isFinished (run (rounds now random (S n)) s) = true.
Proof.
  revert s. induction n as [|n IH]; intros s Hs Hw Hm Ht;
    destruct (round_done now random s Hs Hw Hm Ht) as (Hf & Hs' & Hw' & Hm' & Ht').
  - exact Hf.
  - change (run (rounds now random (S (S n))) s)
      with (run (rounds now random (S n)) (tick (step now random s))).
    now apply IH.
Qed.

Lemma work_or_rest s :
  (callStack s <> [] \/ microtaskQueue s <> [] \/ macrotaskQueue s <> []) \/
  (callStack s = [] /\ microtaskQueue s = [] /\ macrotaskQueue s = []).
Proof.
  destruct (callStack s); [|left; left; discriminate].
  destruct (microtaskQueue s); [|left; right; left; discriminate].
  destruct (macrotaskQueue s); [|left; right; right; discriminate].
  right. auto.
Qed.

Lemma round_weight now random s :
  bounded s -> weight s <> 0%nat ->
  (weight (tick (step now random s)) < weight s)%nat.
Proof.
  intros Hb Hne.
  pose proof (tick_weight (step now random s)
                (bounded_pending _ (step_bounded now random s Hb))) as Ht.
  destruct (work_or_rest s) as [Hwork|(Es & Em & Ema)].
  - pose proof (step_weight now random s Hwork) as Hst. lia.
  - destruct (step_weight_idle now random s Es Em Ema) as (Hw & Hw' & _).
    rewrite Hw' in Ht.
    assert (webApis s <> []) as Hpend.
    { intros Ew. apply Hne. unfold weight. now rewrite Es, Em, Ema, Ew. }
    assert (List.length (webApis s) <> 0)%nat as Hlen
      by (intros H0; now apply length_zero_iff_nil in H0).
    lia.
Qed.

Lemma rounds_finish now random :
  forall n s, bounded s -> (weight s <= n)%nat ->
  isFinished (run (rounds now random (S n)) s) = true.
Proof.
  induction n as [|n IH]; intros s Hb Hle.
  - assert (weight s = 0%nat) as H0 by lia.
    destruct (weight_zero s H0) as (Hs & Hw & Hm & Ht).
    now apply rounds_stay_finished.
  - destruct (Nat.eq_dec (weight s) 0) as [H0|Hne].
    + destruct (weight_zero s H0) as (Hs & Hw & Hm & Ht).
      now apply rounds_stay_finished.
    + change (run (rounds now random (S (S n))) s)
        with (run (rounds now random (S n)) (tick (step now random s))).
      apply IH.
      * now apply tick_bounded, step_bounded.
      * pose proof (round_weight now random s Hb Hne). lia.
Qed.

(** X12. Auto-play comes to an end whenever the timers count down where
    doubles are exact.  From any engine state whose pending timers have
    less than [2^53] ms left and whose timers still to be registered ask for
    a delay below [2^53], rounds of one step followed by one tick reach a
    finished state, and [weight s + 1] rounds are enough, where the weight
    counts one unit per instruction, per dequeue, per frame to pop and per
    tick a timer still needs; a working step takes exactly one unit off, a
    tick one unit per pending timer. *)
Theorem auto_play_terminates (now : Z) (random : string) (s : EngineState)
  (Hb : bounded s) :
  isFinished (run (rounds now random (S (weight s))) s) = true /\
  (callStack s <> [] \/ microtaskQueue s <> [] \/ macrotaskQueue s <> [] ->
   S (weight (step now random s)) = weight s) /\
  (weight (tick s) + List.length (webApis s) = weight s)%nat.
Proof.
  split; [now apply rounds_finish|].
  split; [apply step_weight | apply tick_weight, bounded_pending, Hb].
Qed.

(** An instance: a timer of 250 ms pending beside a queued microtask. *)
Lemma auto_play_terminates_witness :
  let body := [mkTask "task-0" LOG "x" None None (Some 2)] in
  let timer := mkTask "task-1" TIMEOUT "setTimeout" (Some 250) (Some body) (Some 1) in
  let micro := mkTask "micro-1-0.5" PROMISE "Promise Callback" None (Some body) (Some 4) in
  let s := mkEngine "x" [] [] [mkWebApiTask timer 0 250] [micro] [] []
                    true 1000 false None in
  bounded s /\
  weight s = 10%nat /\
  isFinished (run (rounds 5 "0.5" 11) s) = true /\
  (callStack s <> [] \/ microtaskQueue s <> [] \/ macrotaskQueue s <> []) /\
  S (weight (step 5 "0.5" s)) = weight s.
Proof.
  intros body timer micro s.
  assert (bounded s) as Hb.
  { unfold bounded, delaysOk. cbn.
    repeat first [split | constructor]; reflexivity. }
  assert (callStack s <> [] \/ microtaskQueue s <> [] \/ macrotaskQueue s <> [])
    as Hw by (right; left; discriminate).
  destruct (auto_play_terminates 5 "0.5" s Hb) as (Hfin & Hstep & _).
  split; [exact Hb|].
  split; [reflexivity|]. split; [exact Hfin|]. split; [exact Hw|].
  exact (Hstep Hw).
Defined.

Lemma apply_parsedTasks s e : parsedTasks (apply s e) = parsedTasks s.
Proof.
  destruct e as [now random|]; simpl.
  - unfold step. destruct (unsnoc (callStack s)) as [[below frame]|].
    + destruct (currentTask frame); reflexivity.
    + destruct (microtaskQueue s); [destruct (macrotaskQueue s)|]; reflexivity.
  - now rewrite tick_closed_form.
Qed.

Lemma run_parsedTasks evs s : parsedTasks (run evs s) = parsedTasks s.
Proof.
  revert s. induction evs as [|e evs IH]; intros s; [reflexivity|].
  change (run (e :: evs) s) with (run evs (apply s e)).
  now rewrite IH, apply_parsedTasks.
Qed.

Lemma resetEngine_total c newCode autoPlay prev :
  exists s0, resetEngine c newCode autoPlay prev = Ok s0 /\
             exists n, parseCode c newCode = Ok (parsedTasks s0, n).
Proof.
  unfold resetEngine.
  destruct (parseCode_total c newCode) as (ts & n & E). rewrite E.
  eexists. split; [reflexivity|]. now exists n.
Qed.

Lemma reset_bounded c newCode autoPlay prev s0 :
  resetEngine c newCode autoPlay prev = Ok s0 ->
  delaysOk (parsedTasks s0) -> bounded s0.
Proof.
  unfold resetEngine.
  destruct (parseCode c newCode) as [[tasks c']| |]; try discriminate.
  intros [= <-]. cbn [parsedTasks]. intros Hd.
  unfold bounded. cbn [callStack webApis microtaskQueue macrotaskQueue].
  repeat split; try constructor; [|constructor]. exact Hd.
Qed.

(** X13. Every text whose timers ask for delays below [2^53] can be played
    to the end, and then the prediction game has a solution.  Whatever the
    text, the reset installs a state; when every delay of the parsed tree is
    below [2^53], [weight + 1] rounds of a step and a tick from that state
    end in a finished state whose output is a rearrangement of the messages
    [extractLogsRecursive] finds in the parsed tree, and for which the
    prediction equal to the output is judged correct. *)
Theorem every_text_plays_out (idCounter : nat) (text : string)
  (autoPlay : bool) (prev : EngineState) (now : Z) (random : string) :
  exists s0,
    resetEngine idCounter text autoPlay prev = Ok s0 /\
    (delaysOk (parsedTasks s0) ->
     let s := run (rounds now random (S (weight s0))) s0 in
     isFinished s = true /\
     Permutation (consoleOutput s) (extractLogsRecursive (parsedTasks s0)) /\
     verdict (consoleOutput s) s = true).
Proof.
  destruct (resetEngine_total idCounter text autoPlay prev) as (s0 & Hr & _).
  exists s0. split; [exact Hr|]. intros Hd. cbv zeta.
  set (s := run (rounds now random (S (weight s0))) s0).
  assert (reachable s) as Hs
    by (apply reachable_run; exact (reach_reset _ _ _ _ _ Hr)).
  assert (isFinished s = true) as Hf.
  { apply rounds_finish; [|lia]. exact (reset_bounded _ _ _ _ _ Hr Hd). }
  split; [exact Hf|].
  destruct (reachable_conserved s Hs) as [_ Hcnt].
  destruct (reachable_settled s Hs Hf) as ((H1 & H2 & H3 & H4) & _).
  assert (waitingLogs s = []) as Hw
    by (unfold waitingLogs; now rewrite H1, H2, H3, H4).
  split; [|now apply verdict_true].
  apply (Permutation_count_occ string_dec). intros x.
  specialize (Hcnt x). rewrite Hw, app_nil_r in Hcnt.
  unfold s in Hcnt at 2. rewrite run_parsedTasks in Hcnt. exact Hcnt.
Qed.

(** An instance: a timer of 300 ms holding a microtask. *)
Lemma every_text_plays_out_witness :
  let text := join_nl
    [ "setTimeout(() => {";
      "  queueMicrotask(() => {";
      "    console.log('inner');";
      "  });";
      "  console.log('outer');";
      "}, 300);";
      "console.log('first');" ] in
  exists s0,
    resetEngine 0 text false initialState = Ok s0 /\
    delaysOk (parsedTasks s0) /\
    let s := run (rounds 10 "0.5" (S (weight s0))) s0 in
    isFinished s = true /\
    Permutation (consoleOutput s) (extractLogsRecursive (parsedTasks s0)) /\
    verdict (consoleOutput s) s = true.
Proof.
  intros text.
  destruct (every_text_plays_out 0 text false initialState 10 "0.5")
    as (s0 & Hr & H).
  exists s0. split; [exact Hr|].
  assert (delaysOk (parsedTasks s0)) as Hd.
  { vm_compute in Hr. injection Hr as <-.
    unfold delaysOk. cbn. repeat constructor. }
  split; [exact Hd|]. exact (H Hd).
Defined.

(** *** Synchronous code first *)

Lemma topLogs_snoc l t :
  topLogs (l ++ [t]) =
  topLogs l ++ match type t with LOG => [content t] | _ => [] end.
Proof. unfold topLogs. rewrite flat_map_app. simpl. now rewrite app_nil_r. Qed.

Lemma firstn_S_nth {A} (l : list A) k x :
  nth_error l k = Some x -> firstn (S k) l = firstn k l ++ [x].
Proof.
  revert k; induction l as [|a l IH]; intros [|k]; try discriminate.
  - now intros [= ->].
  - intros H. change (a :: firstn (S k) l = a :: (firstn k l ++ [x])).
    f_equal. now apply IH.
Qed.

Lemma apply_syncFirst s e : syncFirst s -> syncFirst (apply s e).
Proof.
  unfold syncFirst. rewrite apply_parsedTasks.
  intros [(k & Hst & Hout)|(later & Hout)].
  - destruct e as [now random|]; simpl.
    + unfold step. rewrite Hst. cbn [unsnoc].
      change (currentTask (mainAt (parsedTasks s) k))
        with (nth_error (parsedTasks s) k).
      destruct (nth_error (parsedTasks s) k) as [task|] eqn:En;
        cbn [callStack consoleOutput].
      * left. exists (S k). split; [reflexivity|].
        rewrite (firstn_S_nth _ _ _ En), topLogs_snoc, <- Hout.
        destruct (type task); now rewrite ?app_nil_r.
      * right. exists nil. rewrite app_nil_r, Hout.
        apply nth_error_None in En. now rewrite firstn_all2.
    + left. exists k. rewrite tick_closed_form. simpl. auto.
  - right. destruct e as [now random|]; simpl.
    + destruct (step_output now random s) as (l & El & _).
      exists (later ++ l). now rewrite El, Hout, app_assoc.
    + exists later. now rewrite tick_output.
Qed.

Lemma reachable_syncFirst s : reachable s -> syncFirst s.
Proof.
  induction 1 as [c newCode autoPlay prev s Hr | s e _ IH].
  - unfold resetEngine in Hr.
    destruct (parseCode c newCode) as [[tasks c']| |]; try discriminate.
    injection Hr as <-. left. exists 0%nat. split; reflexivity.
  - now apply apply_syncFirst.
Qed.

(** X14. Synchronous code runs to completion before any callback.  In every
    state of a session, either the main frame is alone on the stack with
    its cursor at some [k] and the output is exactly what the top-level Log
    instructions before [k] have printed, or the output begins with the
    messages of all the top-level Log instructions, in source order.  In a
    finished state it is the latter: whatever timers and microtasks print
    comes after every top-level message. *)
Theorem sync_code_runs_first (s : EngineState) (Hs : reachable s) :
  ((exists k, callStack s = [mainAt (parsedTasks s) k] /\
              consoleOutput s = topLogs (firstn k (parsedTasks s))) \/
   (exists later, consoleOutput s = topLogs (parsedTasks s) ++ later)) /\
  (isFinished s = true ->
   exists later, consoleOutput s = topLogs (parsedTasks s) ++ later).
Proof.
  pose proof (reachable_syncFirst s Hs) as H. split; [exact H|].
  intros Hf. destruct H as [(k & Hst & _)|H]; [|exact H].
  destruct (reachable_settled s Hs Hf) as ((H1 & _) & _). congruence.
Qed.

(** An instance: the sample with a timer and a microtask between two Logs,
    run to the end. *)
Lemma sync_code_runs_first_witness :
  let st := EvStep 10 "0.5" in
  let s := run (rounds 10 "0.5" 13)
               (startOf (Scenario.scenarioB Scenario.TimeoutZero Scenario.NextTick)) in
  reachable s /\ isFinished s = true /\
  topLogs (parsedTasks s) = ["A"; "D"] /\
  exists later, consoleOutput s = topLogs (parsedTasks s) ++ later.
Proof.
  intros st s.
  assert (reachable s) as Hs
    by (apply reachable_run, reachable_startOf; eexists; reflexivity).
  assert (isFinished s = true) as Hf by reflexivity.
  split; [exact Hs|]. split; [exact Hf|]. split; [reflexivity|].
  exact (proj2 (sync_code_runs_first s Hs) Hf).
Defined.

(** *** When a timer fires *)

Lemma decremented_lowered n a :
  0 < remainingTime a - Z.of_nat n * 100 -> remainingTime a < Num.exactBound ->
  decremented (loweredBy n a) = loweredBy (S n) a.
Proof.
  intros Hp Hb.
  assert (remainingTime (decremented (loweredBy n a)) =
          remainingTime (loweredBy n a) - 100) as H.
  { apply decremented_exact. unfold loweredBy, tickInterval.
    cbn [remainingTime]. lia. }
  unfold decremented in *. unfold loweredBy in *.
  cbn [api_task startTime remainingTime] in *. rewrite H.
  unfold tickInterval. f_equal. lia.
Qed.

Lemma tick_kept_list n (w : list WebApiTask) :
  Forall (fun a => remainingTime a < Num.exactBound) w ->
  map decremented
      (filter (fun a => negb (remainingTime a <=? 0))
              (map (loweredBy n)
                   (filter (fun a => Z.of_nat n * 100 - 100 <? remainingTime a) w)))
  = map (loweredBy (S n))
        (filter (fun a => Z.of_nat n * 100 <? remainingTime a) w).
Proof.
  induction 1 as [|a w Ha Hw IHw]; [reflexivity|]. cbn [filter].
  destruct (Z.ltb_spec (Z.of_nat n * 100 - 100) (remainingTime a)) as [H1|H1];
    destruct (Z.ltb_spec (Z.of_nat n * 100) (remainingTime a)) as [H2|H2];
    try lia; cbn [map filter].
  - change (remainingTime (loweredBy n a))
      with (remainingTime a - Z.of_nat n * tickInterval).
    unfold tickInterval at 1.
    destruct (Z.leb_spec (remainingTime a - Z.of_nat n * 100) 0); [lia|].
    cbn [negb map]. rewrite IHw, decremented_lowered by lia. reflexivity.
  - change (remainingTime (loweredBy n a))
      with (remainingTime a - Z.of_nat n * tickInterval).
    unfold tickInterval at 1.
    destruct (Z.leb_spec (remainingTime a - Z.of_nat n * 100) 0); [|lia].
    cbn [negb]. exact IHw.
  - exact IHw.
Qed.

Lemma lowered_zero (w : list WebApiTask) : map (loweredBy 0) w = w.
Proof.
  induction w as [|a w IH]; [reflexivity|]. cbn [map]. rewrite IH. f_equal.
  destruct a. unfold loweredBy, tickInterval. cbn. f_equal. lia.
Qed.

Lemma ticks_webApis n s :
  Forall (fun a => remainingTime a < Num.exactBound) (webApis s) ->
  webApis (ticks (S n) s) =
  map (loweredBy (S n))
      (filter (fun a => Z.of_nat n * 100 <? remainingTime a) (webApis s)).
Proof.
  intros Hb. induction n as [|n IH].
  - cbn [ticks]. rewrite tick_closed_form. cbn [webApis].
    rewrite <- (tick_kept_list 0 _ Hb).
    assert (filter (fun a => Z.of_nat 0 * 100 - 100 <? remainingTime a)
                   (webApis s) =
            filter (fun a => negb (remainingTime a <=? -100)) (webApis s)) as E.
    { apply filter_ext. intros a.
      destruct (Z.ltb_spec (Z.of_nat 0 * 100 - 100) (remainingTime a)),
               (Z.leb_spec (remainingTime a) (-100)); simpl in *; try reflexivity; lia. }
    rewrite E, lowered_zero.
    clear. induction (webApis s) as [|a w IHw]; [reflexivity|]. cbn [filter].
    destruct (Z.leb_spec (remainingTime a) (-100)) as [H1|H1];
      destruct (Z.leb_spec (remainingTime a) 0) as [H2|H2];
      try lia; cbn [negb filter map]; rewrite ?IHw.
    + reflexivity.
    + destruct (Z.leb_spec (remainingTime a) 0); [|lia]. reflexivity.
    + destruct (Z.leb_spec (remainingTime a) 0); [lia|]. reflexivity.
  - change (ticks (S (S n)) s) with (tick (ticks (S n) s)).
    rewrite tick_closed_form. cbn [webApis]. rewrite IH.
    rewrite <- (tick_kept_list (S n) _ Hb).
    do 3 f_equal. apply filter_ext. intros a.
    destruct (Z.ltb_spec (Z.of_nat n * 100) (remainingTime a)),
             (Z.ltb_spec (Z.of_nat (S n) * 100 - 100) (remainingTime a));
      try reflexivity; lia.
Qed.

Lemma tick_macro_grows s :
  exists more, macrotaskQueue (tick s) = macrotaskQueue s ++ more.
Proof. rewrite tick_closed_form. simpl. eauto. Qed.

Lemma tick_promotes_due s a :
  In a (webApis s) -> remainingTime a <= 0 ->
  In (promoted a) (macrotaskQueue (tick s)).
Proof.
  intros Hin Hr. rewrite tick_closed_form. cbn [macrotaskQueue].
  apply in_or_app. right. apply in_map. apply filter_In.
  split; [exact Hin|]. now apply Z.leb_le.
Qed.

Lemma ticks_promoted n s a :
  Forall (fun a => remainingTime a < Num.exactBound) (webApis s) ->
  In a (webApis s) -> remainingTime a <= Z.of_nat n * 100 ->
  In (promoted a) (macrotaskQueue (ticks (S n) s)).
Proof.
  intros Hb Hin. induction n as [|n IH]; intros Hr.
  - cbn [ticks]. apply tick_promotes_due; [exact Hin|lia].
  - change (ticks (S (S n)) s) with (tick (ticks (S n) s)).
    destruct (Z.le_gt_cases (remainingTime a) (Z.of_nat n * 100)) as [Hle|Hgt].
    + destruct (tick_macro_grows (ticks (S n) s)) as (more & ->).
      apply in_or_app. left. now apply IH.
    + change (promoted a) with (promoted (loweredBy (S n) a)).
      apply tick_promotes_due.
      * rewrite (ticks_webApis n s Hb). apply in_map. apply filter_In.
        split; [exact Hin|]. apply Z.ltb_lt. lia.
      * unfold loweredBy, tickInterval. simpl. lia.
Qed.

(** X15. When a timer fires.  Take a state whose pending timers all have
    less than [2^53] ms left, the range in which the countdown is exact.
    After [n + 1] ticks in a row, the pending set holds exactly the timers
    that had more than [100 n] ms left, in their order, each with
    [100 (n + 1)] ms taken off; so a timer with more than [100 n] ms left is
    still pending, and one with at most [100 n] ms left has been moved to
    the macrotask queue, its identifier, delay, body and line unchanged. *)
Theorem timer_fires_on_time (n : nat) (s : EngineState)
  (Hb : Forall (fun a => remainingTime a < Num.exactBound) (webApis s)) :
  webApis (ticks (S n) s) =
    map (loweredBy (S n))
        (filter (fun a => Z.of_nat n * 100 <? remainingTime a) (webApis s)) /\
  (forall a, In a (webApis s) -> Z.of_nat n * 100 < remainingTime a ->
             In (loweredBy (S n) a) (webApis (ticks (S n) s))) /\
  (forall a, In a (webApis s) -> remainingTime a <= Z.of_nat n * 100 ->
             In (promoted a) (macrotaskQueue (ticks (S n) s)) /\
             ~ In (loweredBy (S n) a) (webApis (ticks (S n) s))).
Proof.
  split; [now apply ticks_webApis|]. split.
  - intros a Hin Hr. rewrite (ticks_webApis n s Hb). apply in_map.
    apply filter_In. split; [exact Hin|]. now apply Z.ltb_lt.
  - intros a Hin Hr. split; [now apply ticks_promoted|].
    rewrite (ticks_webApis n s Hb). intros H.
    apply in_map_iff in H as (b & Hb' & Hf).
    apply filter_In in Hf as [_ Hf]. apply Z.ltb_lt in Hf.
    apply (f_equal remainingTime) in Hb'. unfold loweredBy in Hb'.
    simpl in Hb'. lia.
Qed.

(** An instance: timers of 250 ms and of 0 ms, three ticks. *)
Lemma timer_fires_on_time_witness :
  let slow := mkWebApiTask (mkTask "task-0" TIMEOUT "setTimeout" (Some 250) (Some []) (Some 1)) 7 250 in
  let fast := mkWebApiTask (mkTask "task-1" TIMEOUT "setTimeout" (Some 0) (Some []) (Some 3)) 8 0 in
  let s := mkEngine "x" [] [] [slow; fast] [] [] [] false 1000 false None in
  Forall (fun a => remainingTime a < Num.exactBound) (webApis s) /\
  In slow (webApis s) /\ Z.of_nat 2 * 100 < remainingTime slow /\
  In (loweredBy 3 slow) (webApis (ticks 3 s)) /\
  In fast (webApis s) /\ remainingTime fast <= Z.of_nat 2 * 100 /\
  In (promoted fast) (macrotaskQueue (ticks 3 s)).
Proof.
  intros slow fast s.
  assert (Forall (fun a => remainingTime a < Num.exactBound) (webApis s))
    as Hb by (repeat constructor).
  destruct (timer_fires_on_time 2 s Hb) as (_ & Hkeep & Hgo).
  assert (In slow (webApis s)) as H1 by (left; reflexivity).
  assert (In fast (webApis s)) as H2 by (right; left; reflexivity).
  assert (Z.of_nat 2 * 100 < remainingTime slow) as H3 by (simpl; lia).
  assert (remainingTime fast <= Z.of_nat 2 * 100) as H4 by (simpl; lia).
  split; [exact Hb|].
  split; [exact H1|]. split; [exact H3|]. split; [exact (Hkeep slow H1 H3)|].
  split; [exact H2|]. split; [exact H4|].
  exact (proj1 (Hgo fast H2 H4)).
Defined.

End ProgressFacts.

Module GeneratorFacts.
Import Str Parser ParserView Engine Handlers Shape Generator.
Import ParserFacts.



Lemma scansAgree_spec lines :
  scansAgree lines = true ->
  forall i endLine, (i < endLine <= List.length lines)%nat ->
  findClose lines i endLine = Ok (specFindClose lines i endLine).
Proof.
  unfold scansAgree. intros H i endLine Hr.
  rewrite forallb_forall in H.
  specialize (H endLine). rewrite forallb_forall in H.
  assert (In endLine (seq 0 (S (List.length lines)))) as He
    by (apply in_seq; lia).
  assert (In i (seq 0 endLine)) as Hi by (apply in_seq; lia).
  specialize (H He i Hi).
  destruct (findClose lines i endLine) as [j| |]; try discriminate.
  apply Nat.eqb_eq in H. now subst.
Qed.

Lemma scansAgree_all complexity features :
  scansAgree (split_nl (generateCode complexity features)) = true.
Proof.
  destruct complexity, features as [[] [] [] [] [] []]; vm_compute; reflexivity.
Qed.

(** X17. On the generator's samples the parser's brace scan is exact.  For
    both complexities and every selection of features, from every line of
    the generated text and for every range, the scan that looks only at
    whether a line contains a brace stops at the very line where a count of
    the brace characters first returns to zero. *)
Theorem generated_samples_scan_exactly (complexity : Complexity)
  (features : Features) (i endLine : nat) :
  let lines := split_nl (generateCode complexity features) in
  (i < endLine <= List.length lines)%nat ->
  findClose lines i endLine = Ok (specFindClose lines i endLine).
Proof.
  intros lines Hr. apply scansAgree_spec; [apply scansAgree_all|exact Hr].
Qed.

(** An instance: the nested timer of the complex sample with every feature
    on; its body ends on line 11. *)
Lemma generated_samples_scan_exactly_witness :
  let lines := split_nl (generateCode complex (mkFeatures true true true true true true)) in
  (2 < 26 <= List.length lines)%nat /\
  findClose lines 2 26 = Ok (specFindClose lines 2 26) /\
  specFindClose lines 2 26 = 10%nat.
Proof.
  intros lines.
  assert (2 < 26 <= List.length lines)%nat as Hr by (vm_compute; lia).
  split; [exact Hr|]. split; [|reflexivity].
  exact (generated_samples_scan_exactly complex
           (mkFeatures true true true true true true) 2 26 Hr).
Defined.

End GeneratorFacts.
